(** * TursoFaster: the catalog import script, the cached read queries and
      the image-prefetch route, embedded and checked against their
      specification.

Sources embedded here:
- [scripts/import-convex-data.ts]  (module [ImportConvexData])
- [src/lib/queries.ts], both variants found in the repository
  (modules [Queries], [QueriesLower] and [CatalogQueries])
- the prefetch-images route handler (module [PrefetchImages])

Conventions.  The text of a file and its lines are sequences of UTF-16
code units ([JsText.text]): the line handling of the readers depends on
code units above 255.  Every other JavaScript string (a field of a
record, a search term, a URL) is a Rocq [string], whose characters stand
for code units below 256.  A JavaScript [number] used as an identifier
or a time stamp is a [Z].  [Map<K, V>] is a [gmap K V]: the script only
calls [get] and [set] on its maps.  Code that can throw returns an
[Outcome]. *)

From Stdlib Require Import ZArith Ascii String.
From stdpp Require Import base option list gmap strings sorting.

Local Open Scope Z_scope.

(** ** Outcomes of code that may throw *)

Inductive Exception : Type :=
  | ENOENT (path : string)      (* a file that cannot be opened *)
  | DatabaseError               (* a statement the store rejects *)
  | SyntaxError                 (* [JSON.parse] on a malformed text *)
  | NetworkError                (* a rejected [fetch] or body read *)
  | ParseError                  (* a failure inside the HTML parser *)
  | NonTermination              (* a loop that never exits *)
  | VerificationError.          (* a session token that fails to verify *)

Inductive Outcome (A : Type) : Type :=
  | Returned (a : A)
  | Thrown (e : Exception).
Arguments Returned {A} a.
Arguments Thrown {A} e.

Definition outcome_bind {A B} (o : Outcome A) (k : A → Outcome B) : Outcome B :=
  match o with
  | Returned a => k a
  | Thrown e => Thrown e
  end.

(** [xs.map(f)] where [f] may throw: the first failure aborts the map. *)
Fixpoint map_throwing {A B} (f : A → Outcome B) (xs : list A) : Outcome (list B) :=
  match xs with
  | [] => Returned []
  | x :: rest =>
      outcome_bind (f x) (λ y,
      outcome_bind (map_throwing f rest) (λ ys, Returned (y :: ys)))
  end.

(** ** JavaScript string primitives used by the sources *)

Module Js.

Definition LF : ascii := "010"%char.
Definition CR : ascii := "013"%char.

(** ECMAScript [WhiteSpace] and [LineTerminator] code units below 256:
    TAB, LF, VT, FF, CR, SP and NBSP.  These are what [trim] strips. *)
Definition is_white_space (c : ascii) : bool :=
  match c with
  | "009" | "010" | "011" | "012" | "013" | " " | "160" => true
  | _ => false
  end%char.

Section Trim.
Variable ws : ascii → bool.

Fixpoint trim_start_with (s : string) : string :=
  match s with
  | EmptyString => EmptyString
  | String c rest => if ws c then trim_start_with rest else s
  end.

Fixpoint trim_end_with (s : string) : string :=
  match s with
  | EmptyString => EmptyString
  | String c rest =>
      match trim_end_with rest with
      | EmptyString => if ws c then EmptyString else String c EmptyString
      | t => String c t
      end
  end.

Definition trim_with (s : string) : string :=
  trim_end_with (trim_start_with s).

Fixpoint all_chars (s : string) : bool :=
  match s with
  | EmptyString => true
  | String c rest => ws c && all_chars rest
  end.
End Trim.

(** [s.trim()] *)
Definition trim : string → string := trim_with is_white_space.

(** Truthiness of a string value: only the empty string is falsy. *)
Definition truthy (s : string) : bool :=
  match s with EmptyString => false | String _ _ => true end.

(** Truthiness of [string | null | undefined]. *)
Definition truthy_opt (o : option string) : bool :=
  match o with Some s => truthy s | None => false end.

(** Truthiness of a number: [0] is falsy. *)
Definition truthy_num (n : Z) : bool := negb (n =? 0).

(** [a || b] on [string | undefined] operands. *)
Definition or_else (a b : option string) : option string :=
  if truthy_opt a then a else b.

(** Puts [c] in front of the first piece of a split. *)
Definition cons_head (c : ascii) (pieces : list string) : list string :=
  match pieces with
  | [] => [String c EmptyString]
  | p :: ps => String c p :: ps
  end.

(** [s.split(sep)] for a one-character separator.  [split] of the empty
    string is the one-element array holding the empty string. *)
Fixpoint split (sep : ascii) (s : string) : list string :=
  match s with
  | EmptyString => [EmptyString]
  | String c rest =>
      if Ascii.eqb c sep then EmptyString :: split sep rest
      else cons_head c (split sep rest)
  end.

(** [parts.join(sep)] *)
Fixpoint join (sep : string) (parts : list string) : string :=
  match parts with
  | [] => EmptyString
  | [p] => p
  | p :: ps => p +:+ sep +:+ join sep ps
  end.

(** [xs.slice(i, j)] for [0 <= i <= j]. *)
Definition slice {A} (i j : nat) (xs : list A) : list A :=
  take (j - i)%nat (drop i xs).

End Js.

(** ** The text of a file

    [readFileSync(path, "utf-8")] and the [readline] interface over
    [createReadStream(path)] both decode the bytes of the file to a
    JavaScript string.  The text of a file, and each of its lines, is the
    sequence of the UTF-16 code units of that string; a code unit is a
    number below 65536 (no definition depends on the bound). *)

Module JsText.

Definition text : Type := list N.

Definition LF : N := 10%N.
Definition CR : N := 13%N.
Definition LS : N := 8232%N.       (* U+2028 LINE SEPARATOR *)
Definition PS : N := 8233%N.       (* U+2029 PARAGRAPH SEPARATOR *)

(** ECMAScript [WhiteSpace] (TAB, VT, FF, SP, NBSP, ZWNBSP and the space
    separators U+1680, U+2000..U+200A, U+202F, U+205F, U+3000) and
    [LineTerminator] (LF, CR, LS, PS): what [trim] strips. *)
Definition is_white_space (c : N) : bool :=
  ((9 <=? c) && (c <=? 13) || (c =? 32) || (c =? 160) || (c =? 5760)
   || (8192 <=? c) && (c <=? 8202) || (c =? 8232) || (c =? 8233)
   || (c =? 8239) || (c =? 8287) || (c =? 12288) || (c =? 65279))%N.

Section Trim.
Variable ws : N → bool.

Fixpoint trim_start_with (s : text) : text :=
  match s with
  | [] => []
  | c :: rest => if ws c then trim_start_with rest else s
  end.

Fixpoint trim_end_with (s : text) : text :=
  match s with
  | [] => []
  | c :: rest =>
      match trim_end_with rest with
      | [] => if ws c then [] else [c]
      | t => c :: t
      end
  end.

Definition trim_with (s : text) : text :=
  trim_end_with (trim_start_with s).
End Trim.

(** [s.trim()] *)
Definition trim : text → text := trim_with is_white_space.

(** Truthiness of a string value: only the empty string is falsy. *)
Definition truthy (s : text) : bool :=
  match s with [] => false | _ :: _ => true end.

(** Puts [c] in front of the first piece of a split. *)
Definition cons_head (c : N) (pieces : list text) : list text :=
  match pieces with
  | [] => [[c]]
  | p :: ps => (c :: p) :: ps
  end.

(** [s.split(sep)] for a one-character separator.  [split] of the empty
    string is the one-element array holding the empty string. *)
Fixpoint split (sep : N) (s : text) : list text :=
  match s with
  | [] => [[]]
  | c :: rest =>
      if (c =? sep)%N then [] :: split sep rest
      else cons_head c (split sep rest)
  end.

(** The text whose code units are the characters of a string. *)
Definition of_string (s : string) : text :=
  N_of_ascii <$> list_ascii_of_string s.

End JsText.

(** ** The tables of the store *)

Module Schema.

(** Modelled from the spec: the table declarations ([src/db/schema]) are
    not among the sources; the spec's data model lists the entities.  The
    columns are the ones the code writes and reads back; [id] is the
    store-assigned internal identifier of collections and subcollections.
    The constraints of the tables are not known: which statements the
    store rejects is a parameter of the world the script runs in (see
    [rejects] below). *)
Module Collection.
Record row := mk { id : Z; name : string; slug : string }.
Record values := new { name' : string; slug' : string }.
Definition with_id (i : Z) (v : values) : row := mk i (name' v) (slug' v).
End Collection.

Module Category.
Record row := mk { slug : string; name : string; collection_id : Z;
  image_url : option string }.
End Category.

Module Subcollection.
Record row := mk { id : Z; name : string; category_slug : string }.
Record values := new { name' : string; category_slug' : string }.
Definition with_id (i : Z) (v : values) : row :=
  mk i (name' v) (category_slug' v).
End Subcollection.

Module Subcategory.
Record row := mk { slug : string; name : string; subcollection_id : Z;
  image_url : option string }.
End Subcategory.

Module Product.
Record row := mk { slug : string; name : string; description : string;
  price : Z; subcategory_slug : string;
  image_url : option string }.
End Product.

(** Only the [id] column of a user is read by the code; the remaining
    columns are kept as one value. *)
Module User.
Record row := mk { id : Z; columns : list (string * string) }.
End User.

Record Store := mkStore {
    users : list User.row;
    collections : list Collection.row;
    categories : list Category.row;
    subcollections : list Subcollection.row;
    subcategories : list Subcategory.row;
    products : list Product.row
  }.

Definition empty_store : Store := mkStore [] [] [] [] [] [].

End Schema.

(** ** scripts/import-convex-data.ts *)

(** [JSON.parse(line) as T]: the decoder of one line into a record of type
    [T]; [None] stands for the [SyntaxError] that [JSON.parse] throws. *)
Class JSONParse (T : Type) := JSON_parse : JsText.text → option T.

Module ImportConvexData.
Export Schema.

Definition BATCH_SIZE : nat := 1000.
Definition PRODUCT_BATCH_SIZE : nat := 1000.

(** *** Records of the export (the fields [_id] and [_creationTime] are
    never read by the script and are left out) *)

Module ConvexCollection.
Record t := mk { external_id : Z; name : string; slug : string }.
End ConvexCollection.

Module ConvexCategory.
Record t := mk { collection_id : Z; name : string; slug : string;
  image_url : option string }.
End ConvexCategory.

Module ConvexSubcollection.
Record t := mk { external_id : Z; category_slug : string; name : string }.
End ConvexSubcollection.

Module ConvexSubcategory.
Record t := mk { subcollection_id : Z; name : string; slug : string;
  image_url : option string }.
End ConvexSubcategory.

Module ConvexProduct.
Record t := mk { name : string; slug : string; description : string;
  price : Z; subcategory_slug : string;
  image_url : option string }.
End ConvexProduct.

(** Modelled from the spec: internal identifiers are assigned by the
    store on insert.  The model hands out the integer after the largest
    identifier present, and consecutive ones within a batch. *)
Definition fresh_id (ids : list Z) : Z := 1 + foldr Z.max 0 ids.

Fixpoint assign_ids {V R} (with_id : Z → V → R) (next : Z) (vs : list V)
  : list R :=
  match vs with
  | [] => []
  | v :: rest => with_id next v :: assign_ids with_id (next + 1) rest
  end.

(** *** The world the script runs in *)

Inductive Entity :=
  Collections | Categories | Subcollections | Subcategories | Products.

Inductive Warning :=
  | CollectionNotFoundAfterInsert (slug : string)
  | CollectionIdNotFound (collection_id : Z) (category_slug : string)
  | SubcollectionNotFoundAfterInsert (key : string)
  | SubcollectionIdNotFound (subcollection_id : Z) (subcategory_slug : string).

(** Lines written to the console; message texts are kept as constructors,
    and the empty lines between the imports and the percentage of the
    product progress line are left out. *)
Inductive ConsoleLine :=
  | LogImporting (e : Entity)
  | LogFound (e : Entity) (n : nat)
  | LogBatch (current total : nat)
  | LogProductBatch (current total written all : nat)
  | LogImported (e : Entity) (n : nat)
  | LogCompleted
  | LogError (e : Exception)
  | Warn (w : Warning).

(** A statement the script sends to the store. *)
Inductive Statement :=
  | InsertCollections (batch : list Collection.values)
  | InsertCategories (batch : list Category.row)
  | InsertSubcollections (batch : list Subcollection.values)
  | InsertSubcategories (batch : list Subcategory.row)
  | InsertProducts (batch : list Product.row)
  | SelectCollections
  | SelectSubcollections.

(** The store may reject a statement: it cannot be reached, a key is
    duplicated, a reference dangles.  [rejects w d s] is the exception with
    which the store in state [d] rejects the statement [s], if it does.  A
    rejected statement leaves the store as it was. *)
Record World := mkWorld {
    env : gmap string string;      (* process.env *)
    fs : gmap string JsText.text;  (* file contents by path *)
    rejects : Store → Statement → option Exception;
    db : Store;
    console : list ConsoleLine
  }.

Definition Script (A : Type) : Type := World → Outcome A * World.

#[export] Instance script_ret : MRet Script := λ A a w, (Returned a, w).
#[export] Instance script_bind : MBind Script := λ A B k m w,
  match m w with
  | (Returned a, w') => k a w'
  | (Thrown e, w') => (Thrown e, w')
  end.

Definition lift_outcome {A} (f : World → Outcome A) : Script A :=
  λ w, (f w, w).

Definition console_write (line : ConsoleLine) : Script unit :=
  λ w, (Returned tt,
        mkWorld (env w) (fs w) (rejects w) (db w) (console w ++ [line])).

Definition console_log := console_write.
Definition console_warn (x : Warning) : Script unit := console_write (Warn x).

(** [await db.insert(table).values(batch)]: the promise rejects when the
    store rejects the statement, and otherwise the store has changed. *)
Definition execute (s : Statement) (change : Store → Store) : Script unit :=
  λ w,
    match rejects w (db w) s with
    | Some e => (Thrown e, w)
    | None =>
        (Returned tt,
         mkWorld (env w) (fs w) (rejects w) (change (db w)) (console w))
    end.

(** *** Record readers *)

Section Readers.
Context {T : Type} `{JSONParse T}.

Definition parse_line (line : JsText.text) : Outcome T :=
  match JSON_parse line with
  | Some record => Returned record
  | None => Thrown SyntaxError
  end.

(** [readFileSync(filePath, "utf-8")] *)
Definition readFileSync (files : gmap string JsText.text) (filePath : string)
  : Outcome JsText.text :=
  match files !! filePath with
  | Some content => Returned content
  | None => Thrown (ENOENT filePath)
  end.

Definition readJSONL (files : gmap string JsText.text) (filePath : string)
  : Outcome (list T) :=
  outcome_bind (readFileSync files filePath) (λ content,
    map_throwing parse_line
      (filter (λ line, JsText.truthy (JsText.trim line) = true)
              (JsText.split JsText.LF content))).

(** The lines a [readline] interface reports for an input: a line ends
    at LF, at CR, at CR LF, at U+2028 and at U+2029 (Node's line-ending
    pattern is [\r?\n|\r(?!\n)|\u2028|\u2029]); with
    [crlfDelay: Infinity] a CR followed by LF is always one line end.
    [sawReturn] records that the previous code unit was a CR, so that an
    LF right after it is swallowed. *)
Fixpoint rl_lines_from (sawReturn : bool) (s : JsText.text)
  : list JsText.text :=
  match s with
  | [] => [[]]
  | c :: rest =>
      if (c =? JsText.LF)%N then
        if sawReturn then rl_lines_from false rest
        else [] :: rl_lines_from false rest
      else if (c =? JsText.CR)%N then
        [] :: rl_lines_from true rest
      else if ((c =? JsText.LS) || (c =? JsText.PS))%N then
        [] :: rl_lines_from false rest
      else JsText.cons_head c (rl_lines_from false rest)
  end.

(** At the end of the input the pending text is reported as a last
    line only when it is not empty. *)
Fixpoint drop_empty_last (lines : list JsText.text) : list JsText.text :=
  match lines with
  | [] => []
  | [l] => if JsText.truthy l then [l] else []
  | l :: rest => l :: drop_empty_last rest
  end.

Definition rl_lines (content : JsText.text) : list JsText.text :=
  drop_empty_last (rl_lines_from false content).

(** The [for await (const line of rl)] loop, pushing onto [data]. *)
Fixpoint for_await_lines (lines : list JsText.text) (data : list T)
  : Outcome (list T) :=
  match lines with
  | [] => Returned data
  | line :: rest =>
      if JsText.truthy (JsText.trim line) then
        outcome_bind (parse_line line) (λ record,
          for_await_lines rest (data ++ [record]))
      else for_await_lines rest data
  end.

Definition readJSONLStream (files : gmap string JsText.text) (filePath : string)
  : Outcome (list T) :=
  outcome_bind (readFileSync files filePath) (λ content,
    for_await_lines (rl_lines content) []).
End Readers.

(** *** The batch insert loop

    [for (let i = 0; i < xs.length; i += B) { batch = xs.slice(i, i + B);
    await insert(batch); log(...) }], written once for the five copies in
    the script.  The loop runs on [fuel]; [length xs] iterations are
    enough whenever [B] is positive (see [insert_in_batches_chunks]). *)
Section BatchInsert.
Context {St A : Type}.
Variable insert_values : list A → St → Outcome unit * St.
Variable log_progress : nat → list A → St → St.
Variable B : nat.
Variable xs : list A.

Fixpoint insert_loop (fuel i : nat) (st : St) : option (Outcome unit * St) :=
  if (i <? length xs)%nat then
    match fuel with
    | O => None
    | S fuel' =>
        let batch := Js.slice i (i + B) xs in
        match insert_values batch st with
        | (Returned _, st') => insert_loop fuel' (i + B)%nat (log_progress i batch st')
        | (Thrown e, st') => Some (Thrown e, st')
        end
    end
  else Some (Returned tt, st).

Definition insert_in_batches (st : St) : option (Outcome unit * St) :=
  insert_loop (length xs) 0 st.
End BatchInsert.

(** *** Store operations *)

(** [await db.insert(schema.collections).values(batch)], and the same
    for the other four tables. *)
Definition insert_collections (batch : list Collection.values) : Script unit :=
  execute (InsertCollections batch) (λ d,
    mkStore (users d)
      (collections d ++
         assign_ids Collection.with_id
           (fresh_id (Collection.id <$> collections d)) batch)
      (categories d) (subcollections d) (subcategories d) (products d)).

Definition insert_categories (batch : list Category.row) : Script unit :=
  execute (InsertCategories batch) (λ d,
    mkStore (users d) (collections d) (categories d ++ batch)
      (subcollections d) (subcategories d) (products d)).

Definition insert_subcollections (batch : list Subcollection.values)
  : Script unit :=
  execute (InsertSubcollections batch) (λ d,
    mkStore (users d) (collections d) (categories d)
      (subcollections d ++
         assign_ids Subcollection.with_id
           (fresh_id (Subcollection.id <$> subcollections d)) batch)
      (subcategories d) (products d)).

Definition insert_subcategories (batch : list Subcategory.row) : Script unit :=
  execute (InsertSubcategories batch) (λ d,
    mkStore (users d) (collections d) (categories d) (subcollections d)
      (subcategories d ++ batch) (products d)).

Definition insert_products (batch : list Product.row) : Script unit :=
  execute (InsertProducts batch) (λ d,
    mkStore (users d) (collections d) (categories d) (subcollections d)
      (subcategories d) (products d ++ batch)).

(** [await db.select().from(table)] *)
Definition select_from {R} (s : Statement) (table : Store → list R)
  : Script (list R) :=
  λ w,
    match rejects w (db w) s with
    | Some e => (Thrown e, w)
    | None => (Returned (table (db w)), w)
    end.

(** [Math.ceil(n / B)] and [Math.floor(i / B) + 1] on naturals. *)
Definition total_batches (n B : nat) : nat := ((n + B - 1) / B)%nat.
Definition batch_number (i B : nat) : nat := (i / B + 1)%nat.

Definition add_line (line : ConsoleLine) (w : World) : World :=
  mkWorld (env w) (fs w) (rejects w) (db w) (console w ++ [line]).

(** The loop with the plain progress line of the first four imports. *)
Definition insert_batches {V} (insert_values : list V → Script unit)
    (B : nat) (xs : list V) : Script unit :=
  λ w,
    match insert_in_batches insert_values
            (λ i _, add_line (LogBatch (batch_number i B)
                                       (total_batches (length xs) B)))
            B xs w with
    | Some result => result
    | None => (Thrown NonTermination, w)
    end.

(** The loop of [importProducts], whose progress line also reports the
    number of products written so far. *)
Definition insert_product_batches (B : nat) (xs : list Product.row)
  : Script unit :=
  λ w,
    match insert_in_batches insert_products
            (λ i batch, add_line (LogProductBatch (batch_number i B)
                                    (total_batches (length xs) B)
                                    (i + length batch) (length xs)))
            B xs w with
    | Some result => result
    | None => (Thrown NonTermination, w)
    end.

(** *** Key remapping (the two loops after a parent insert) *)

(** [for (const dbItem of rows) keyToId.set(key(dbItem), dbItem.id)] *)
Definition key_to_id_map {R} (key : R → string) (id : R → Z) (rows : list R)
  : gmap string Z :=
  foldl (λ m dbItem, <[key dbItem := id dbItem]> m) ∅ rows.

(** [for (const convexItem of data) { const dbId = keyToId.get(key);
    if (dbId) map.set(convexItem.external_id, dbId); else console.warn(..) }] *)
Fixpoint match_by_key {T} (key : T → string) (external_id : T → Z)
    (not_found : string → Warning) (keyToIdMap : gmap string Z)
    (data : list T) (externalMap : gmap Z Z) : Script (gmap Z Z) :=
  match data with
  | [] => mret externalMap
  | convexItem :: rest =>
      match keyToIdMap !! key convexItem with
      | Some dbId =>
          if Js.truthy_num dbId then
            match_by_key key external_id not_found keyToIdMap rest
              (<[external_id convexItem := dbId]> externalMap)
          else
            console_warn (not_found (key convexItem));;
            match_by_key key external_id not_found keyToIdMap rest externalMap
      | None =>
          console_warn (not_found (key convexItem));;
          match_by_key key external_id not_found keyToIdMap rest externalMap
      end
  end.

(** The part of [importCollections] after the read-back: the slug-to-id
    map of the rows, then the match of every source record by its slug. *)
Definition build_collection_map (data : list ConvexCollection.t)
    (allCollections : list Collection.row) : Script (gmap Z Z) :=
  let slugToIdMap := key_to_id_map Collection.slug Collection.id allCollections in
  match_by_key ConvexCollection.slug ConvexCollection.external_id
    CollectionNotFoundAfterInsert slugToIdMap data ∅.

(** The composite key [`${name}::${category_slug}`]. *)
Definition composite_key (name category_slug : string) : string :=
  name +:+ "::" +:+ category_slug.

(** The part of [importSubcollections] after the read-back, with the
    composite key in place of the slug. *)
Definition build_subcollection_map (data : list ConvexSubcollection.t)
    (allSubcollections : list Subcollection.row) : Script (gmap Z Z) :=
  let keyToIdMap :=
    key_to_id_map
      (λ dbItem, composite_key (Subcollection.name dbItem)
                               (Subcollection.category_slug dbItem))
      Subcollection.id allSubcollections in
  match_by_key
    (λ convexItem, composite_key (ConvexSubcollection.name convexItem)
                                 (ConvexSubcollection.category_slug convexItem))
    ConvexSubcollection.external_id
    SubcollectionNotFoundAfterInsert keyToIdMap data ∅.

(** *** Parent resolution (the [map] to row-or-null, then the [filter]) *)

(** [item.image_url || null] *)
Definition or_null (image_url : option string) : option string :=
  if Js.truthy_opt image_url then image_url else None.

(** One step of [data.map(item => ...)]: warns and yields [null] when the
    lookup is [undefined] or falsy. *)
Definition resolve_parent {T R} (parent_id : T → Z)
    (missing : T → Warning) (build : T → Z → R) (parentMap : gmap Z Z)
    (item : T) : Script (option R) :=
  match parentMap !! parent_id item with
  | Some parentId =>
      if Js.truthy_num parentId then mret (Some (build item parentId))
      else console_warn (missing item);; mret None
  | None => console_warn (missing item);; mret None
  end.

Fixpoint map_script {A R} (f : A → Script R) (xs : list A) : Script (list R) :=
  match xs with
  | [] => mret []
  | x :: rest => y ← f x; ys ← map_script f rest; mret (y :: ys)
  end.

(** [.filter(item => item !== null)] *)
Definition filter_non_null {R} (xs : list (option R)) : list R := omap id xs.

Section Imports.
Context `{JSONParse ConvexCollection.t} `{JSONParse ConvexCategory.t}
        `{JSONParse ConvexSubcollection.t} `{JSONParse ConvexSubcategory.t}
        `{JSONParse ConvexProduct.t}.

Definition collections_path : string := "data/convex/collections/documents.jsonl".
Definition categories_path : string := "data/convex/categories/documents.jsonl".
Definition subcollections_path : string :=
  "data/convex/subcollections/documents.jsonl".
Definition subcategories_path : string :=
  "data/convex/subcategories/documents.jsonl".
Definition products_path : string := "data/convex/products/documents.jsonl".

Definition importCollections : Script (gmap Z Z) :=
  console_log (LogImporting Collections);;
  data ← lift_outcome (λ w, readJSONL (fs w) collections_path);
  console_log (LogFound Collections (length data));;
  let collectionsToInsert :=
    (λ item, Collection.new (ConvexCollection.name item)
                            (ConvexCollection.slug item)) <$> data in
  insert_batches insert_collections BATCH_SIZE collectionsToInsert;;
  allCollections ← select_from SelectCollections collections;
  collectionMap ← build_collection_map data allCollections;
  console_log (LogImported Collections (length data));;
  mret collectionMap.

Definition category_row (item : ConvexCategory.t) (collectionId : Z)
  : Category.row :=
  Category.mk (ConvexCategory.slug item) (ConvexCategory.name item)
    collectionId (or_null (ConvexCategory.image_url item)).

Definition importCategories (collectionMap : gmap Z Z) : Script unit :=
  console_log (LogImporting Categories);;
  data ← lift_outcome (λ w, readJSONL (fs w) categories_path);
  console_log (LogFound Categories (length data));;
  mapped ← map_script
    (resolve_parent ConvexCategory.collection_id
       (λ item, CollectionIdNotFound (ConvexCategory.collection_id item)
                                     (ConvexCategory.slug item))
       category_row collectionMap) data;
  let categoriesToInsert := filter_non_null mapped in
  insert_batches insert_categories BATCH_SIZE categoriesToInsert;;
  console_log (LogImported Categories (length categoriesToInsert)).

Definition importSubcollections : Script (gmap Z Z) :=
  console_log (LogImporting Subcollections);;
  data ← lift_outcome (λ w, readJSONL (fs w) subcollections_path);
  console_log (LogFound Subcollections (length data));;
  let subcollectionsToInsert :=
    (λ item, Subcollection.new (ConvexSubcollection.name item)
                               (ConvexSubcollection.category_slug item))
      <$> data in
  insert_batches insert_subcollections BATCH_SIZE subcollectionsToInsert;;
  allSubcollections ← select_from SelectSubcollections subcollections;
  subcollectionMap ← build_subcollection_map data allSubcollections;
  console_log (LogImported Subcollections (length data));;
  mret subcollectionMap.

Definition subcategory_row (item : ConvexSubcategory.t) (subcollectionId : Z)
  : Subcategory.row :=
  Subcategory.mk (ConvexSubcategory.slug item) (ConvexSubcategory.name item)
    subcollectionId (or_null (ConvexSubcategory.image_url item)).

Definition importSubcategories (subcollectionMap : gmap Z Z) : Script unit :=
  console_log (LogImporting Subcategories);;
  data ← lift_outcome (λ w, readJSONL (fs w) subcategories_path);
  console_log (LogFound Subcategories (length data));;
  mapped ← map_script
    (resolve_parent ConvexSubcategory.subcollection_id
       (λ item, SubcollectionIdNotFound
                  (ConvexSubcategory.subcollection_id item)
                  (ConvexSubcategory.slug item))
       subcategory_row subcollectionMap) data;
  let subcategoriesToInsert := filter_non_null mapped in
  insert_batches insert_subcategories BATCH_SIZE subcategoriesToInsert;;
  console_log (LogImported Subcategories (length subcategoriesToInsert)).

Definition product_row (item : ConvexProduct.t) : Product.row :=
  Product.mk (ConvexProduct.slug item) (ConvexProduct.name item)
    (ConvexProduct.description item) (ConvexProduct.price item)
    (ConvexProduct.subcategory_slug item)
    (or_null (ConvexProduct.image_url item)).

Definition importProducts : Script unit :=
  console_log (LogImporting Products);;
  data ← lift_outcome (λ w, readJSONLStream (fs w) products_path);
  console_log (LogFound Products (length data));;
  let productsToInsert := product_row <$> data in
  insert_product_batches PRODUCT_BATCH_SIZE productsToInsert;;
  console_log (LogImported Products (length productsToInsert)).

(** The body of the [try] block of [main]. *)
Definition import_all : Script unit :=
  collectionMap ← importCollections;
  importCategories collectionMap;;
  subcollectionMap ← importSubcollections;
  importSubcategories subcollectionMap;;
  importProducts;;
  console_log LogCompleted.

Inductive ExitStatus := Exit0 | Exit1.

Definition main (w : World) : ExitStatus * World :=
  if negb (Js.truthy_opt (env w !! "TURSO_DATABASE_URL"))
     || negb (Js.truthy_opt (env w !! "TURSO_AUTH_TOKEN"))
  then (Exit1, w)
  else
    match import_all w with
    | (Returned _, w') => (Exit0, w')
    | (Thrown e, w') => (Exit1, add_line (LogError e) w')
    end.
End Imports.

End ImportConvexData.

(** ** The SQL conditions the search builds, and SQLite's LIKE *)

Module Sqlite.

(** ASCII lower-casing, as SQLite's [LOWER] and its case-insensitive
    comparison of LIKE do it. *)
Definition lower_char (c : ascii) : ascii :=
  let n := nat_of_ascii c in
  if ((65 <=? n) && (n <=? 90))%nat then ascii_of_nat (n + 32) else c.

Fixpoint lower (s : string) : string :=
  match s with
  | EmptyString => EmptyString
  | String c rest => String (lower_char c) (lower rest)
  end.

(** [text LIKE pattern] without an escape character: [%] matches any run
    of characters, [_] matches one character, every other character
    matches itself up to ASCII case. *)
Fixpoint like (pattern text : string) : bool :=
  match pattern with
  | EmptyString =>
      match text with EmptyString => true | String _ _ => false end
  | String p pattern' =>
      if Ascii.eqb p "%" then
        (fix any_suffix (t : string) : bool :=
           like pattern' t
           || match t with
              | EmptyString => false
              | String _ t' => any_suffix t'
              end) text
      else
        match text with
        | EmptyString => false
        | String c text' =>
            (Ascii.eqb p "_" || Ascii.eqb (lower_char p) (lower_char c))
            && like pattern' text'
        end
  end.

(** Conditions on [products.name]. *)
Inductive Condition :=
  | NameLikeNocase (pattern : string)   (* name COLLATE NOCASE LIKE ? *)
  | LowerNameLike (pattern : string)    (* LOWER(name) LIKE LOWER(?) *)
  | And (left right : Condition).       (* left AND right *)

Fixpoint holds (c : Condition) (name : string) : bool :=
  match c with
  | NameLikeNocase pattern => like pattern name
  | LowerNameLike pattern => like (lower pattern) (lower name)
  | And l r => holds l name && holds r name
  end.

End Sqlite.

(** ** src/lib/queries.ts *)

Module Queries.
Export Schema.
Import Sqlite.

(** *** getUser *)

(** A value found in a token payload where a number is expected. *)
Inductive JsValue :=
  | JsNumber (n : Z)
  | JsString (s : string)
  | JsUndefined.

Record SessionUser := mkSessionUser { id : JsValue }.

(** [expires] holds the time value of [new Date(sessionData.expires)], in
    milliseconds; [None] is the invalid date. *)
Record SessionData := mkSessionData {
  user : option SessionUser;
  expires : option Z
}.

(** What a request sees: the value of the [session] cookie if there is
    one, the token verifier of [./session] (not among the sources: it is
    taken as given, and may throw or return a falsy payload), the clock
    and the store. *)
Record Request := mkRequest {
  session_cookie : option string;
  verifyToken : string → Outcome (option SessionData);
  now : Z;
  store : Store
}.

(** [new Date(expires) < new Date()]; a comparison with the invalid date
    is false. *)
Definition date_lt (expires : option Z) (now : Z) : bool :=
  match expires with
  | Some t => t <? now
  | None => false
  end.

(** [db.select().from(users).where(and(eq(users.id, id))).limit(1)] *)
Definition select_user (d : Store) (id : Z) : list User.row :=
  take 1 (filter (λ u, User.id u = id) (users d)).

Definition getUser (r : Request) : Outcome (option User.row) :=
  match session_cookie r with
  | None => Returned None
  | Some value =>
      if negb (Js.truthy value) then Returned None
      else
        outcome_bind (verifyToken r value) (λ sessionData,
          match sessionData with
          | None => Returned None
          | Some sessionData =>
              match user sessionData with
              | None => Returned None
              | Some u =>
                  match id u with
                  | JsNumber userId =>
                      if date_lt (expires sessionData) (now r)
                      then Returned None
                      else
                        match select_user (store r) userId with
                        | [] => Returned None
                        | first :: _ => Returned (Some first)
                        end
                  | _ => Returned None
                  end
              end
          end)
  end.

(** *** getSearchResults *)

Record SearchRow := mkSearchRow {
    products_row : Product.row;
    subcategories_row : Subcategory.row;
    subcollections_row : Subcollection.row;
    categories_row : Category.row
  }.

(** [db.select().from(products).where(c).limit(5).innerJoin(..) x 3]: the
    products whose name satisfies [c], joined to their ancestors, at
    most five rows. *)
Definition select_search (d : Store) (c : Condition) : list SearchRow :=
  take 5
    (p ← filter (λ p, holds c (Product.name p) = true) (products d);
     sc ← filter (λ sc, Product.subcategory_slug p = Subcategory.slug sc)
                 (subcategories d);
     scoll ← filter (λ scoll, Subcategory.subcollection_id sc
                              = Subcollection.id scoll) (subcollections d);
     cat ← filter (λ cat, Subcollection.category_slug scoll
                          = Category.slug cat) (categories d);
     [mkSearchRow p sc scoll cat]).

(** [trimmedTerm.split(" ").filter(term => term.trim() !== "")
      .map(term => term.trim())] *)
Definition split_terms (trimmedTerm : string) : list string :=
  Js.trim <$> filter (λ term, Js.trim term ≠ EmptyString)
                     (Js.split " " trimmedTerm).

(** [term.length >= 3 ? term + "%" : "%" + term + "%"] *)
Definition term_pattern (term : string) : string :=
  if (3 <=? String.length term)%nat then term +:+ "%"
  else "%" +:+ term +:+ "%".

(** The result rows, and the conditions of the store queries issued. *)
Definition getSearchResults (d : Store) (searchTerm : string)
  : list SearchRow * list Condition :=
  let trimmedTerm := Js.trim searchTerm in
  let searchTerms := split_terms trimmedTerm in
  match searchTerms with
  | [] => ([], [])
  | firstTerm :: others =>
      let whereCondition :=
        match others with
        | [] =>
            if (3 <=? String.length firstTerm)%nat
            then NameLikeNocase (firstTerm +:+ "%")
            else NameLikeNocase ("%" +:+ firstTerm +:+ "%")
        | _ =>
            let firstPattern :=
              if (3 <=? String.length firstTerm)%nat
              then firstTerm +:+ "%" else "%" +:+ firstTerm +:+ "%" in
            foldl (λ condition term,
                     And condition (NameLikeNocase (term_pattern term)))
                  (NameLikeNocase firstPattern) others
        end in
      (select_search d whereCondition, [whereCondition])
  end.

End Queries.

(** ** The second variant of src/lib/queries.ts found in the repository
    ([LOWER(..) LIKE LOWER(..)] patterns, no early return) *)

Module QueriesLower.
Export Schema.
Import Sqlite.

(** ["%" + x + "%"] where [x] may be [undefined]. *)
Definition to_string (x : option string) : string :=
  match x with Some s => s | None => "undefined" end.

Definition getSearchResults (d : Store) (searchTerm : string)
  : list Queries.SearchRow * list Condition :=
  let trimmedTerm := Js.trim searchTerm in
  let searchPattern := "%" +:+ trimmedTerm +:+ "%" in
  let searchTerms := Queries.split_terms trimmedTerm in
  let whereCondition :=
    match searchTerms with
    | [_] => LowerNameLike searchPattern
    | _ =>
        foldl (λ condition term,
                 And condition (LowerNameLike ("%" +:+ term +:+ "%")))
              (LowerNameLike ("%" +:+ to_string (searchTerms !! 0%nat) +:+ "%"))
              (drop 1 searchTerms)
    end in
  (Queries.select_search d whereCondition, [whereCondition]).

End QueriesLower.

(** ** The prefetch-images route handler *)

Module PrefetchImages.

(** The variables of [process.env] the handler reads. *)
Record Env := mkEnv {
  NODE_ENV : option string;
  VERCEL_URL : option string;
  VERCEL_ENV : option string;
  VERCEL_PROJECT_PRODUCTION_URL : option string;
  VERCEL_BRANCH_URL : option string
}.

Definition is_development (e : Env) : bool :=
  bool_decide (NODE_ENV e = Some "development").

Definition getHostname (e : Env) : option string :=
  if is_development e then Some "localhost:3000"
  else if Js.truthy_opt (VERCEL_URL e) then VERCEL_URL e
  else if bool_decide (VERCEL_ENV e = Some "production")
    then Js.or_else (VERCEL_PROJECT_PRODUCTION_URL e) (VERCEL_URL e)
  else Js.or_else (VERCEL_BRANCH_URL e) (VERCEL_URL e).

(** An [img] element: its attributes by name. *)
Definition Element : Type := gmap string string.

Definition getAttribute (img : Element) (name : string) : option string :=
  img !! name.

Record Image := mkImage {
    srcset : option string;
    sizes : option string;
    src : option string;
    alt : option string;
    loading : option string
  }.

(** What [fetch] resolves to: the [ok] flag and the result of [text()]. *)
Record FetchResponse := mkFetchResponse {
  ok : bool;
  text : Outcome string
}.

(** The collaborators of the handler: [fetch], and linkedom's [parseHTML]
    followed by [document.querySelectorAll("main img")].  Either may
    throw. *)
Record Web := mkWeb {
  fetch : string → Outcome FetchResponse;
  main_imgs : string → Outcome (list Element)
}.

Record NextRequest := mkNextRequest {
    host_header : option string;        (* request.headers.get("host") *)
    rest : list string                  (* params.rest *)
  }.

(** [NextResponse.json({ images }, { status, headers })]; the status is
    200 when none is given. *)
Record NextResponse := json {
  images : list Image;
  status : Z;
  cache_control : option string
}.

Definition to_image (img : Element) : Image :=
  mkImage (Js.or_else (getAttribute img "srcset") (getAttribute img "srcSet"))
          (getAttribute img "sizes")
          (getAttribute img "src")
          (getAttribute img "alt")
          (getAttribute img "loading").

(** From [fetch(url)] to the response, the part both branches share:
    the steps that may throw are sequenced in an [Outcome]. *)
Definition fetch_images (web : Web) (url : string) : Outcome NextResponse :=
  outcome_bind (fetch web url) (λ response,
    if negb (ok response) then Returned (json [] 200 None)
    else
      outcome_bind (text response) (λ body,
      outcome_bind (main_imgs web body) (λ elements,
        let images :=
          filter (λ img, Js.truthy_opt (src img) = true)
                 (to_image <$> elements) in
        Returned (json images 200 (Some "public, max-age=3600"))))).

(** [try { ... } catch (error) { return json({ images: [] }, 200) }] *)
Definition catch_empty (o : Outcome NextResponse) : NextResponse :=
  match o with
  | Returned response => response
  | Thrown _ => json [] 200 None
  end.

Definition GET (e : Env) (web : Web) (request : NextRequest) : NextResponse :=
  catch_empty
    (let schema := if is_development e then "http" else "https" in
     let host := getHostname e in
     if negb (Js.truthy_opt host) then
       let hostHeader := host_header request in
       if Js.truthy_opt hostHeader && is_development e then
         let href := Js.join "/" (rest request) in
         if negb (Js.truthy href) then Returned (json [] 400 None)
         else
           let url := schema +:+ "://" +:+ default "" hostHeader +:+ "/" +:+ href in
           Returned (catch_empty (fetch_images web url))
       else Returned (json [] 500 None)
     else
       let href := Js.join "/" (rest request) in
       if negb (Js.truthy href) then Returned (json [] 400 None)
       else
         let url := schema +:+ "://" +:+ default "" host +:+ "/" +:+ href in
         fetch_images web url).

End PrefetchImages.

(** ** src/lib/queries.ts: the listing and counting queries

    The functions below are the bodies handed to [unstable_cache] (which
    is not among the sources): what a call computes from the store when
    the cache does not answer.  The queries that follow the relations of
    the schema ([with: { categories: true }] and the like) are left out:
    the relations are declared in the schema. *)

Module CatalogQueries.
Export Schema.

(** The one row of a [select({ count: count() })]. *)
Record CountRow := mkCountRow { count : nat }.

(** [orderBy: asc(products.slug)]: text is compared code unit by code
    unit. *)
Definition slug_le (p q : Product.row) : Prop :=
  String.le (Product.slug p) (Product.slug q).

#[export] Instance slug_le_dec : RelDecision slug_le.
Proof. intros p q. unfold slug_le. apply _. Defined.

(** [db.query.products.findMany({ where: eq(subcategory_slug, s),
    orderBy: asc(slug) })] *)
Definition getProductsForSubcategory (d : Store) (subcategorySlug : string)
  : list Product.row :=
  merge_sort slug_le
    (filter (λ p, Product.subcategory_slug p = subcategorySlug) (products d)).


(** [db.query.subcategories.findFirst({ where: eq(slug, s) })] *)
Definition getSubcategory (d : Store) (subcategorySlug : string)
  : option Subcategory.row :=
  head (filter (λ sc, Subcategory.slug sc = subcategorySlug) (subcategories d)).


(** [db.select({ count: count() }).from(products)
      .where(eq(products.subcategory_slug, s))] *)
Definition getSubcategoryProductCount (d : Store) (subcategorySlug : string)
  : list CountRow :=
  [mkCountRow
     (length (filter (λ p, Product.subcategory_slug p = subcategorySlug)
                     (products d)))].

(** [left.leftJoin(right, on)]: every left row is kept; it is paired with
    each right row that satisfies [on], or with NULL when none does. *)
Definition leftJoin {L R} (on : L → R → bool) (left : list L) (right : list R)
  : list (L * option R) :=
  l ← left;
  match filter (λ r, on l r = true) right with
  | [] => [(l, None)]
  | matching => (λ r, (l, Some r)) <$> matching
  end.

(** [eq(a, b)] where [a] may be the NULL of an earlier left join: a
    comparison with NULL is not true. *)
Definition eq_nullable {A B V} `{EqDecision V} (a : A → V) (b : B → V)
    (x : option A) (y : B) : bool :=
  match x with
  | Some x => bool_decide (a x = b y)
  | None => false
  end.

(** [db.select({ count: count() }).from(categories)
      .leftJoin(subcollections, eq(categories.slug, subcollections.category_slug))
      .leftJoin(subcategories, eq(subcollections.id, subcategories.subcollection_id))
      .leftJoin(products, eq(subcategories.slug, products.subcategory_slug))
      .where(eq(categories.slug, categorySlug))] *)
Definition getCategoryProductCount (d : Store) (categorySlug : string)
  : list CountRow :=
  let joined1 :=
    leftJoin (λ c sc, bool_decide (Category.slug c = Subcollection.category_slug sc))
             (categories d) (subcollections d) in
  let joined2 :=
    leftJoin (λ row s, eq_nullable Subcollection.id Subcategory.subcollection_id
                         (snd row) s)
             joined1 (subcategories d) in
  let joined3 :=
    leftJoin (λ row p, eq_nullable Subcategory.slug Product.subcategory_slug
                         (snd row) p)
             joined2 (products d) in
  [mkCountRow
     (length (filter (λ row, Category.slug (fst (fst (fst row))) = categorySlug)
                     joined3))].

End CatalogQueries.

(** * Vocabulary of the statements *)

Module Vocabulary.
Import ImportConvexData.

(** Every carriage return of the text is immediately followed by a line
    feed. *)
Fixpoint cr_only_before_lf (s : JsText.text) : bool :=
  match s with
  | [] => true
  | c :: rest =>
      (if (c =? JsText.CR)%N then
         match rest with
         | d :: _ => (d =? JsText.LF)%N
         | [] => false
         end
       else true)
      && cr_only_before_lf rest
  end.

(** The text holds neither U+2028 nor U+2029. *)
Definition no_line_separator (s : JsText.text) : bool :=
  forallb (λ c, negb ((c =? JsText.LS) || (c =? JsText.PS))%N) s.

(** A line without its final carriage return, if it has one. *)
Fixpoint strip_cr (line : JsText.text) : JsText.text :=
  match line with
  | [] => []
  | c :: rest =>
      match rest with
      | [] => if (c =? JsText.CR)%N then [] else line
      | _ :: _ => c :: strip_cr rest
      end
  end.

(** The non-blank lines of a text, in the words of the specification:
    the pieces between line feeds that hold something besides white
    space. *)
Definition non_blank_lines (content : JsText.text) : list JsText.text :=
  filter (λ line, forallb JsText.is_white_space line = false)
         (JsText.split JsText.LF content).

(** The chunks partition the sequence into contiguous pieces: they
    concatenate to it, each holds between 1 and [B] records, and each but
    the last holds exactly [B]. *)
Definition is_partition {A} (B : nat) (xs : list A) (chunks : list (list A))
  : Prop :=
  concat chunks = xs
  ∧ ∀ k chunk, chunks !! k = Some chunk →
      (1 ≤ length chunk ≤ B)%nat
      ∧ ((S k < length chunks)%nat → length chunk = B).

(** Writing chunks in order: each chunk is handed to the insert; after an
    insert that returns, progress is reported with the index [i] of the
    first record of the chunk, and the writing goes on with the next
    chunk; an insert that throws ends the writing with its exception. *)
Fixpoint write_chunks {St A}
    (insert_values : list A → St → Outcome unit * St)
    (log_progress : nat → list A → St → St) (i : nat)
    (chunks : list (list A)) (st : St) : Outcome unit * St :=
  match chunks with
  | [] => (Returned tt, st)
  | chunk :: rest =>
      match insert_values chunk st with
      | (Returned _, st') =>
          write_chunks insert_values log_progress (i + length chunk) rest
            (log_progress i chunk st')
      | (Thrown e, st') => (Thrown e, st')
      end
  end.

(** [w'] is [w] after some console lines and a change [P] of the store:
    the environment, the files and the constraints of the store are the
    same. *)
Definition world_step (P : Store → Store → Prop) (w w' : World) : Prop :=
  env w' = env w ∧ fs w' = fs w ∧ rejects w' = rejects w
  ∧ (∃ lines, console w' = console w ++ lines)
  ∧ P (db w) (db w').

(** The row a child record resolves to under a parent remapping, if its
    parent identifier has a truthy entry. *)
Definition resolved {T R} (parent_id : T → Z) (build : T → Z → R)
    (parentMap : gmap Z Z) (item : T) : option R :=
  match parentMap !! parent_id item with
  | Some parentId =>
      if Js.truthy_num parentId then Some (build item parentId) else None
  | None => None
  end.


Definition add_lines (lines : list ConsoleLine) (w : World) : World :=
  mkWorld (env w) (fs w) (rejects w) (db w) (console w ++ lines).

(** The warning a child record causes, if its parent does not resolve. *)
Definition unresolved_warning {T R} (parent_id : T → Z) (build : T → Z → R)
    (missing : T → Warning) (parentMap : gmap Z Z) (item : T)
  : option ConsoleLine :=
  match resolved parent_id build parentMap item with
  | Some _ => None
  | None => Some (Warn (missing item))
  end.

(** [keyToId.get(key)] when the result is truthy. *)
Definition truthy_lookup (keyToIdMap : gmap string Z) (key : string) : option Z :=
  match keyToIdMap !! key with
  | Some dbId => if Js.truthy_num dbId then Some dbId else None
  | None => None
  end.

(** The warning a source record causes, if its key is not found. *)
Definition not_found_warning {T} (key : T → string)
    (not_found : string → Warning) (keyToIdMap : gmap string Z) (item : T)
  : option ConsoleLine :=
  match truthy_lookup keyToIdMap (key item) with
  | Some _ => None
  | None => Some (Warn (not_found (key item)))
  end.

(** The remapping as the specification words it: an external identifier
    is sent to [n] exactly when some read-back row with the natural key of
    its source record has the identifier [n]. *)
Definition is_remap_of {T R} (item_key : T → string) (external_id : T → Z)
    (row_key : R → string) (row_id : R → Z)
    (data : list T) (rows : list R) (remap : gmap Z Z) : Prop :=
  ∀ e n, remap !! e = Some n ↔
    ∃ item row, item ∈ data ∧ external_id item = e
                ∧ row ∈ rows ∧ row_key row = item_key item ∧ row_id row = n.

(** What the key remapper owes for one parent entity: it returns a
    remapping [remap] after writing the console lines [lines]; [remap] is
    the remapping of the specification; and every source record whose key
    no read-back row carries is warned about and gets no entry. *)
Definition remapper_correct {T R} (build : list T → list R → Script (gmap Z Z))
    (item_key : T → string) (external_id : T → Z)
    (row_key : R → string) (row_id : R → Z) (not_found : string → Warning)
    (data : list T) (rows : list R) (w : World) : Prop :=
  ∃ remap lines,
    build data rows w = (Returned remap, add_lines lines w)
    ∧ is_remap_of item_key external_id row_key row_id data rows remap
    ∧ ∀ item, item ∈ data →
        (∀ row, row ∈ rows → row_key row ≠ item_key item) →
        Warn (not_found (item_key item)) ∈ lines
        ∧ remap !! external_id item = None.

Definition collection_slug_key (row : Collection.row) : string :=
  Collection.slug row.
Definition subcollection_row_key (row : Subcollection.row) : string :=
  composite_key (Subcollection.name row) (Subcollection.category_slug row).
Definition subcollection_item_key (item : ConvexSubcollection.t) : string :=
  composite_key (ConvexSubcollection.name item)
                (ConvexSubcollection.category_slug item).



Definition with_products (rows : list Product.row) (d : Store) : Store :=
  mkStore (users d) (collections d) (categories d) (subcollections d)
    (subcategories d) (products d ++ rows).

Definition collection_values (row : Collection.row) : Collection.values :=
  Collection.new (Collection.name row) (Collection.slug row).


(** [d'] is [d] with new collections, which carry the given values in
    order (and store-assigned identifiers). *)
Definition collections_added (values : list Collection.values) (d d' : Store)
  : Prop :=
  ∃ new, d' = mkStore (users d) (collections d ++ new) (categories d)
                (subcollections d) (subcategories d) (products d)
         ∧ collection_values <$> new = values.


(** [d'] is [d] with rows appended to the catalog tables: no row of [d]
    is missing or changed, and the users are the same. *)
Definition store_extends (d d' : Store) : Prop :=
  users d' = users d
  ∧ (∃ new, collections d' = collections d ++ new)
  ∧ (∃ new, categories d' = categories d ++ new)
  ∧ (∃ new, subcollections d' = subcollections d ++ new)
  ∧ (∃ new, subcategories d' = subcategories d ++ new)
  ∧ (∃ new, products d' = products d ++ new).

(** A script that, whatever its outcome, only writes console lines and
    appends rows to the store. *)
Definition only_appends {A} (m : Script A) : Prop :=
  ∀ w, world_step store_extends w (snd (m w)).

(** Splitting on white space, in the words of the specification: the
    pieces between white-space characters. *)
Fixpoint whitespace_pieces (s : string) : list string :=
  match s with
  | EmptyString => [EmptyString]
  | String c rest =>
      if Js.is_white_space c then EmptyString :: whitespace_pieces rest
      else Js.cons_head c (whitespace_pieces rest)
  end.

(** The terms of a search string as the specification words them: trim,
    split on white space, drop the empty terms. *)
Definition whitespace_terms (searchTerm : string) : list string :=
  filter (λ term, term ≠ EmptyString) (whitespace_pieces (Js.trim searchTerm)).

(** The pattern the specification gives a term. *)
Definition spec_pattern (term : string) : string :=
  if (3 <=? String.length term)%nat then term +:+ "%" else "%" +:+ term +:+ "%".

(** The search predicate of the specification on a product name. *)
Definition spec_matches (searchTerm name : string) : bool :=
  forallb (λ term, Sqlite.like (spec_pattern term) name)
          (whitespace_terms searchTerm).

(** [name] starts with [term], up to ASCII case. *)
Fixpoint starts_with_nocase (term name : string) : bool :=
  match term, name with
  | EmptyString, _ => true
  | String _ _, EmptyString => false
  | String p term', String c name' =>
      Ascii.eqb (Sqlite.lower_char p) (Sqlite.lower_char c)
      && starts_with_nocase term' name'
  end.

(** [term] occurs somewhere in [name], up to ASCII case. *)
Fixpoint contains_nocase (term name : string) : bool :=
  starts_with_nocase term name
  || match name with
     | EmptyString => false
     | String _ name' => contains_nocase term name'
     end.

(** The term holds neither of LIKE's wildcards. *)
Definition no_wildcard (term : string) : bool :=
  Js.all_chars (λ c, negb (Ascii.eqb c "%" || Ascii.eqb c "_")) term.

(** The predicate of the queries a search issues, on a product name. *)
Definition conditions_hold (conditions : list Sqlite.Condition) (name : string)
  : bool :=
  forallb (λ c, Sqlite.holds c name) conditions.

Definition search_matches (searchTerm name : string) : bool :=
  conditions_hold (snd (Queries.getSearchResults empty_store searchTerm)) name.

Definition search_matches_lower (searchTerm name : string) : bool :=
  conditions_hold (snd (QueriesLower.getSearchResults empty_store searchTerm)) name.

(** The URL the prefetch handler fetches, when it gets as far as a fetch:
    a host is resolved and the path is not empty. *)
Definition prefetch_url (e : PrefetchImages.Env)
    (request : PrefetchImages.NextRequest) : option string :=
  match PrefetchImages.getHostname e with
  | Some host =>
      if Js.truthy host && Js.truthy (Js.join "/" (PrefetchImages.rest request))
      then Some ((if PrefetchImages.is_development e then "http" else "https")
                 +:+ "://" +:+ host +:+ "/"
                 +:+ Js.join "/" (PrefetchImages.rest request))
      else None
  | None => None
  end.

(** The page fetch or the HTML parsing fails: [fetch] rejects, the response
    is not [ok], reading the body rejects, or the parser throws. *)
Definition fetch_or_parse_fails (web : PrefetchImages.Web) (url : string) : Prop :=
  match PrefetchImages.fetch web url with
  | Thrown _ => True
  | Returned response =>
      PrefetchImages.ok response = false
      ∨ match PrefetchImages.text response with
        | Thrown _ => True
        | Returned body =>
            match PrefetchImages.main_imgs web body with
            | Thrown _ => True
            | Returned _ => False
            end
        end
  end.

(** An image object with a non-empty [src]. *)
Definition has_src (img : PrefetchImages.Image) : Prop :=
  ∃ s, PrefetchImages.src img = Some s ∧ s ≠ EmptyString.

End Vocabulary.

(** * Sample inputs *)

Module Samples.
Import ImportConvexData.

(** JSON's insignificant white space: TAB, LF, CR and SP. *)
Definition is_json_space (c : N) : bool :=
  ((c =? 9) || (c =? 10) || (c =? 13) || (c =? 32))%N.

(** A decoder that knows the listed texts only and, as [JSON.parse] does,
    ignores the white space around a text. *)
Definition decode_texts {T} (table : list (JsText.text * T)) : JSONParse T :=
  λ line, (list_to_map table : gmap JsText.text T)
            !! JsText.trim_with is_json_space line.

Definition decode_table {T} (table : list (string * T)) : JSONParse T :=
  decode_texts (prod_map JsText.of_string id <$> table).

Definition cr : string := String Js.CR EmptyString.
Definition lf : string := String Js.LF EmptyString.

(** Read-back rows and source records for the key remapper. *)
Definition collection_rows : list Collection.row :=
  [Collection.mk 1 "Furniture" "furniture"; Collection.mk 2 "Lighting" "lighting"].

Definition collection_records : list ConvexCollection.t :=
  [ConvexCollection.mk 101 "Furniture" "furniture";
   ConvexCollection.mk 102 "Lighting" "lighting";
   ConvexCollection.mk 103 "Garden" "garden"].

Definition subcollection_rows : list Subcollection.row :=
  [Subcollection.mk 1 "Chairs" "seating"; Subcollection.mk 2 "Chairs" "outdoor"].

Definition subcollection_records : list ConvexSubcollection.t :=
  [ConvexSubcollection.mk 201 "seating" "Chairs";
   ConvexSubcollection.mk 202 "outdoor" "Chairs";
   ConvexSubcollection.mk 203 "outdoor" "Tables"].

(** Two read-back subcollections with the same name in the same category. *)
Definition twin_rows : list Subcollection.row :=
  [Subcollection.mk 1 "Shirts" "men"; Subcollection.mk 2 "Shirts" "men"].

Definition twin_records : list ConvexSubcollection.t :=
  [ConvexSubcollection.mk 10 "men" "Shirts";
   ConvexSubcollection.mk 11 "men" "Shirts"].

(** A store that rejects no statement. *)
Definition accepts_all (d : Store) (s : Statement) : option Exception := None.

(** A store that enforces the reference of a product to its subcategory:
    it rejects an insert of products when the [subcategory_slug] of one of
    them is the slug of no subcategory. *)
Definition enforces_subcategory_slugs (d : Store) (s : Statement)
  : option Exception :=
  match s with
  | InsertProducts batch =>
      if forallb (λ p, bool_decide (Product.subcategory_slug p
                                    ∈ Subcategory.slug <$> subcategories d))
                 batch
      then None else Some DatabaseError
  | _ => None
  end.

(** A store in which the slug is the key of a category: it rejects an
    insert of categories that would give two categories the same slug. *)
Definition enforces_category_slugs (d : Store) (s : Statement)
  : option Exception :=
  match s with
  | InsertCategories batch =>
      if bool_decide (NoDup (Category.slug <$> categories d ++ batch))
      then None else Some DatabaseError
  | _ => None
  end.

Definition blank_world : World := mkWorld ∅ ∅ accepts_all empty_store [].

(** Three categories, the third with the slug of the first, and a store
    in which the slug is the key of a category. *)
Definition three_categories : list Category.row :=
  [Category.mk "chairs" "Chairs" 1 None; Category.mk "lamps" "Lamps" 1 None;
   Category.mk "chairs" "More chairs" 1 None].

Definition keyed_world : World :=
  mkWorld ∅ ∅ enforces_category_slugs empty_store [].

Definition three_products : list Product.row :=
  [Product.mk "aeron" "Aeron" "A chair" 1200 "desk-chairs" None;
   Product.mk "zeta" "Zeta chair" "A chair" 300 "desk-chairs" None;
   Product.mk "ghost" "Ghost" "No shelf" 5 "x" None].

(** JSON texts for the sample files. *)
Definition dq : string := String "034"%char EmptyString.
Definition quoted (s : string) : string := dq +:+ s +:+ dq.
Definition field (name value : string) : string := quoted name +:+ ":" +:+ value.
Definition object (fields : list string) : string :=
  "{" +:+ Js.join "," fields +:+ "}".
Definition file_of (lines : list string) : string := Js.join lf lines +:+ lf.

Definition furniture_line : string :=
  object [field "external_id" "101"; field "name" (quoted "Furniture");
          field "slug" (quoted "furniture")].
Definition chairs_line : string :=
  object [field "collection_id" "101"; field "name" (quoted "Chairs");
          field "slug" (quoted "chairs")].
Definition lamps_line : string :=
  object [field "collection_id" "999"; field "name" (quoted "Lamps");
          field "slug" (quoted "lamps")].
Definition office_chairs_line : string :=
  object [field "external_id" "201"; field "category_slug" (quoted "chairs");
          field "name" (quoted "Office chairs")].
Definition desk_chairs_line : string :=
  object [field "subcollection_id" "201"; field "name" (quoted "Desk chairs");
          field "slug" (quoted "desk-chairs")].
Definition orphans_line : string :=
  object [field "subcollection_id" "777"; field "name" (quoted "Orphans");
          field "slug" (quoted "orphans")].
Definition aeron_line : string :=
  object [field "name" (quoted "Aeron"); field "slug" (quoted "aeron");
          field "description" (quoted "A chair"); field "price" "1200";
          field "subcategory_slug" (quoted "desk-chairs")].
Definition ghost_line : string :=
  object [field "name" (quoted "Ghost"); field "slug" (quoted "ghost");
          field "description" (quoted "No shelf"); field "price" "5";
          field "subcategory_slug" (quoted "x")].

Definition decode_collection : JSONParse ConvexCollection.t :=
  decode_table [(furniture_line, ConvexCollection.mk 101 "Furniture" "furniture")].
Definition decode_category : JSONParse ConvexCategory.t :=
  decode_table [(chairs_line, ConvexCategory.mk 101 "Chairs" "chairs" None);
                (lamps_line, ConvexCategory.mk 999 "Lamps" "lamps" None)].
Definition decode_subcollection : JSONParse ConvexSubcollection.t :=
  decode_table
    [(office_chairs_line, ConvexSubcollection.mk 201 "chairs" "Office chairs")].
Definition decode_subcategory : JSONParse ConvexSubcategory.t :=
  decode_table
    [(desk_chairs_line, ConvexSubcategory.mk 201 "Desk chairs" "desk-chairs" None);
     (orphans_line, ConvexSubcategory.mk 777 "Orphans" "orphans" None)].
Definition decode_product : JSONParse ConvexProduct.t :=
  decode_table
    [(aeron_line, ConvexProduct.mk "Aeron" "aeron" "A chair" 1200 "desk-chairs" None);
     (ghost_line, ConvexProduct.mk "Ghost" "ghost" "No shelf" 5 "x" None)].

(** An empty store and the five export files: one collection; a category
    under it and one under a collection that is not exported; one
    subcollection; a subcategory under it and one under a subcollection
    that is not exported; a product on that subcategory's slug and one on
    the slug [x], which no subcategory has. *)
Definition export_world : World :=
  mkWorld
    {[ "TURSO_DATABASE_URL" := "libsql://catalog"; "TURSO_AUTH_TOKEN" := "secret" ]}
    {[ collections_path := JsText.of_string (file_of [furniture_line]);
       categories_path := JsText.of_string (file_of [chairs_line; lamps_line]);
       subcollections_path := JsText.of_string (file_of [office_chairs_line]);
       subcategories_path :=
         JsText.of_string (file_of [desk_chairs_line; orphans_line]);
       products_path := JsText.of_string (file_of [aeron_line; ghost_line]) ]}
    accepts_all empty_store [].

(** The same export, and a store that enforces the reference of a product
    to its subcategory. *)
Definition referential_world : World :=
  mkWorld (env export_world) (fs export_world) enforces_subcategory_slugs
          empty_store [].

(** The world after the five imports have run on [export_world]. *)
Definition imported_world : World :=
  snd (@import_all decode_collection decode_category decode_subcollection
         decode_subcategory decode_product export_world).

Definition tab : string := String "009"%char EmptyString.

(** A session whose payload names user 7 and expires at time 1000. *)
Definition session_of_user_7 : Queries.SessionData :=
  Queries.mkSessionData (Some (Queries.mkSessionUser (Queries.JsNumber 7)))
                        (Some 1000).

Definition verify_sample (token : string) : Outcome (option Queries.SessionData) :=
  if bool_decide (token = "signed-token") then Returned (Some session_of_user_7)
  else Thrown VerificationError.

Definition store_with_users (rows : list User.row) : Store :=
  mkStore rows [] [] [] [] [].

(** The request arrives at time 2000, after the session has expired; user
    7 exists. *)
Definition late_request : Queries.Request :=
  Queries.mkRequest (Some "signed-token") verify_sample 2000
    (store_with_users [User.mk 7 [("username", "ada")]]).

(** The request arrives at time 500, before the expiry; the user table
    holds user 8 only. *)
Definition request_of_deleted_user : Queries.Request :=
  Queries.mkRequest (Some "signed-token") verify_sample 500
    (store_with_users [User.mk 8 [("username", "bob")]]).

(** A production deployment with no Vercel variable set. *)
Definition env_without_host : PrefetchImages.Env :=
  PrefetchImages.mkEnv (Some "production") None None None None.

Definition env_on_vercel : PrefetchImages.Env :=
  PrefetchImages.mkEnv (Some "production") (Some "shop.example") None None None.

(** A page with three images under [main]: one with a source, one with an
    empty source and one with none. *)
Definition page_images : list PrefetchImages.Element :=
  [ {[ "src" := "/a.png"; "alt" := "A"; "loading" := "lazy" ]};
    {[ "src" := ""; "alt" := "B" ]};
    {[ "alt" := "C"; "srcSet" := "/c.png 2x" ]} ].

Definition web_up : PrefetchImages.Web :=
  PrefetchImages.mkWeb
    (λ _, Returned (PrefetchImages.mkFetchResponse true (Returned "<main>")))
    (λ _, Returned page_images).

Definition web_down : PrefetchImages.Web :=
  PrefetchImages.mkWeb (λ _, Thrown NetworkError) (λ _, Thrown ParseError).

Definition product_page : PrefetchImages.NextRequest :=
  PrefetchImages.mkNextRequest (Some "shop.example") ["products"; "aeron"].

(** A store with two categories; only [chairs] has a subcollection, a
    subcategory and products. *)
Definition small_catalog : Store :=
  mkStore []
    [Collection.mk 1 "Furniture" "furniture"]
    [Category.mk "chairs" "Chairs" 1 None; Category.mk "lamps" "Lamps" 1 None]
    [Subcollection.mk 1 "Office chairs" "chairs"]
    [Subcategory.mk "desk-chairs" "Desk chairs" 1 None]
    [Product.mk "zeta" "Zeta chair" "A chair" 300 "desk-chairs" None;
     Product.mk "aeron" "Aeron" "A chair" 1200 "desk-chairs" None].

(** The request arrives before the expiry and user 7 exists. *)
Definition request_of_user_7 : Queries.Request :=
  Queries.mkRequest (Some "signed-token") verify_sample 500
    (store_with_users [User.mk 8 [("username", "bob")];
                       User.mk 7 [("username", "ada")]]).

(** The cookie holds a token the verifier rejects. *)
Definition forged_request : Queries.Request :=
  Queries.mkRequest (Some "forged-token") verify_sample 500
    (store_with_users [User.mk 7 [("username", "ada")]]).

Definition numbers : JSONParse Z := decode_table [("1", 1); ("2", 2)].

(** [1 CR 2]: two numbers separated by a lone carriage return. *)
Definition lone_cr_file : gmap string JsText.text :=
  {[ "numbers.jsonl" := JsText.of_string ("1" +:+ cr +:+ "2") ]}.

(** [1 CR LF CR LF SP SP LF 2 LF]: CR LF line ends and blank lines. *)
Definition crlf_file : gmap string JsText.text :=
  {[ "numbers.jsonl" :=
       JsText.of_string
         ("1" +:+ cr +:+ lf +:+ cr +:+ lf +:+ "  " +:+ lf +:+ "2" +:+ lf) ]}.

(** A JSON string with a raw U+2028 between [a] and [b], and a file
    that holds this line. *)
Definition separator_line : JsText.text :=
  JsText.of_string (dq +:+ "a") ++ [JsText.LS] ++ JsText.of_string ("b" +:+ dq).

Definition separated_name : JSONParse Z := decode_texts [(separator_line, 1)].

Definition separator_file : gmap string JsText.text :=
  {[ "names.jsonl" := separator_line ++ [JsText.LF] ]}.

End Samples.

(** * Properties *)

(** ** Strings *)

Section StringFacts.
Import Vocabulary.

Lemma trim_start_all ws s :
  Js.all_chars ws s = true → Js.trim_start_with ws s = EmptyString.
Proof.
  induction s as [|c s IH]; simpl; [done|].
  destruct (ws c); simpl; [exact IH | done].
Qed.

Lemma trim_start_not_all ws s :
  Js.all_chars ws s = false →
  ∃ c rest, Js.trim_start_with ws s = String c rest ∧ ws c = false.
Proof.
  induction s as [|c s IH]; simpl; [done|].
  destruct (ws c) eqn:Hc; simpl; [exact IH | eauto].
Qed.

Lemma trim_end_head_kept ws c rest :
  ws c = false → Js.truthy (Js.trim_end_with ws (String c rest)) = true.
Proof.
  intros Hc. simpl. destruct (Js.trim_end_with ws rest); [by rewrite Hc | done].
Qed.

(** [s.trim()] is the empty string exactly when [s] is all white space. *)
Lemma truthy_trim ws s :
  Js.truthy (Js.trim_with ws s) = negb (Js.all_chars ws s).
Proof.
  unfold Js.trim_with. destruct (Js.all_chars ws s) eqn:Hall.
  - by rewrite trim_start_all.
  - destruct (trim_start_not_all ws s Hall) as (c & rest & -> & Hc).
    by apply trim_end_head_kept.
Qed.

Lemma trim_empty_iff ws s :
  Js.trim_with ws s = EmptyString ↔ Js.all_chars ws s = true.
Proof.
  pose proof (truthy_trim ws s) as Ht.
  destruct (Js.trim_with ws s), (Js.all_chars ws s); simpl in *; done.
Qed.

Lemma append_cons c s t : String c s +:+ t = String c (s +:+ t).
Proof. done. Qed.

End StringFacts.

(** ** Texts *)

Section TextFacts.
Import Vocabulary.

Lemma split_not_nil sep s : JsText.split sep s ≠ [].
Proof.
  induction s as [|c s IH]; simpl; [done|].
  destruct (c =? sep)%N; [done|].
  destruct (JsText.split sep s); [done | done].
Qed.

Lemma text_trim_start_all ws s :
  forallb ws s = true → JsText.trim_start_with ws s = [].
Proof.
  induction s as [|c s IH]; simpl; [done|].
  destruct (ws c); simpl; [exact IH | done].
Qed.

Lemma text_trim_start_not_all ws s :
  forallb ws s = false →
  ∃ c rest, JsText.trim_start_with ws s = c :: rest ∧ ws c = false.
Proof.
  induction s as [|c s IH]; simpl; [done|].
  destruct (ws c) eqn:Hc; simpl; [exact IH | eauto].
Qed.

Lemma text_trim_end_head_kept ws c rest :
  ws c = false → JsText.truthy (JsText.trim_end_with ws (c :: rest)) = true.
Proof.
  intros Hc. simpl.
  destruct (JsText.trim_end_with ws rest); [by rewrite Hc | done].
Qed.

(** [s.trim()] is the empty text exactly when [s] is all white space. *)
Lemma text_truthy_trim ws s :
  JsText.truthy (JsText.trim_with ws s) = negb (forallb ws s).
Proof.
  unfold JsText.trim_with. destruct (forallb ws s) eqn:Hall.
  - by rewrite text_trim_start_all.
  - destruct (text_trim_start_not_all ws s Hall) as (c & rest & -> & Hc).
    by apply text_trim_end_head_kept.
Qed.

Lemma strip_cr_cons c s :
  c ≠ JsText.CR → strip_cr (c :: s) = c :: strip_cr s.
Proof.
  intros Hc. destruct s as [|d s]; [|done].
  simpl. by destruct (N.eqb_spec c JsText.CR).
Qed.

Lemma strip_cr_cons_cons c d s : strip_cr (c :: d :: s) = c :: strip_cr (d :: s).
Proof. done. Qed.

Lemma all_white_strip_cr s :
  forallb JsText.is_white_space (strip_cr s)
  = forallb JsText.is_white_space s.
Proof.
  induction s as [|c s IH]; [done|].
  destruct s as [|d s].
  - simpl. destruct (N.eqb_spec c JsText.CR) as [->|]; done.
  - rewrite strip_cr_cons_cons. cbn [forallb] in *. by rewrite IH.
Qed.

(** A line is its stripped form, or its stripped form plus one CR. *)
Lemma strip_cr_cases s :
  strip_cr s = s ∨ s = strip_cr s ++ [JsText.CR].
Proof.
  induction s as [|c s IH]; [by left|].
  destruct s as [|d s].
  - simpl. destruct (N.eqb_spec c JsText.CR) as [->|]; [by right | by left].
  - rewrite strip_cr_cons_cons.
    destruct IH as [IH|IH]; [left | right].
    + by rewrite IH.
    + rewrite <- app_comm_cons. by rewrite <- IH.
Qed.

Lemma trim_end_snoc ws s c :
  ws c = true →
  JsText.trim_end_with ws (s ++ [c]) = JsText.trim_end_with ws s.
Proof.
  intros Hc. induction s as [|a s IH].
  - cbn. by rewrite Hc.
  - rewrite <- app_comm_cons. cbn [JsText.trim_end_with]. by rewrite IH.
Qed.

(** White space added at the end of a text does not change its trim. *)
Lemma trim_with_snoc ws s c :
  ws c = true →
  JsText.trim_with ws (s ++ [c]) = JsText.trim_with ws s.
Proof.
  intros Hc. unfold JsText.trim_with. induction s as [|a s IH].
  - cbn. by rewrite Hc.
  - rewrite <- app_comm_cons. cbn [JsText.trim_start_with].
    destruct (ws a); [exact IH|].
    by rewrite app_comm_cons, trim_end_snoc.
Qed.

End TextFacts.

(** ** The record readers *)

Section ReaderFacts.
Import ImportConvexData Vocabulary.
Context {T : Type} `{JSONParse T}.

Local Abbreviation non_blank :=
  (λ line : JsText.text, JsText.truthy (JsText.trim line) = true).

Lemma strip_cr_cons_head c pieces :
  c ≠ JsText.CR → pieces ≠ [] →
  strip_cr <$> JsText.cons_head c pieces
  = JsText.cons_head c (strip_cr <$> pieces).
Proof.
  intros Hc Hp. destruct pieces as [|p ps]; [done|].
  unfold JsText.cons_head. rewrite !fmap_cons. by rewrite strip_cr_cons.
Qed.

(** Without a lone CR, a U+2028 or a U+2029, the lines that [readline]
    reports are the pieces between line feeds, less a final CR. *)
Lemma rl_lines_from_split s :
  cr_only_before_lf s = true →
  no_line_separator s = true →
  rl_lines_from false s = strip_cr <$> JsText.split JsText.LF s.
Proof.
  induction s as [|c s IH]; [done|].
  intros Hs Hsep. simpl in Hs. apply andb_prop in Hs as [Hc Hs].
  cbn [no_line_separator forallb] in Hsep.
  apply andb_prop in Hsep as [Hcsep Hsep].
  specialize (IH Hs Hsep). simpl.
  destruct (N.eqb_spec c JsText.LF) as [->|Hlf].
  { simpl. by rewrite IH. }
  destruct (N.eqb_spec c JsText.CR) as [->|Hcr].
  - destruct s as [|d s]; [done|].
    apply N.eqb_eq in Hc as ->.
    simpl in IH. simpl. injection IH as IH. by rewrite IH.
  - apply negb_true_iff in Hcsep. rewrite Hcsep.
    rewrite IH. symmetry. apply strip_cr_cons_head; [done|].
    apply split_not_nil.
Qed.

Lemma filter_drop_empty_last lines :
  filter non_blank (drop_empty_last lines) = filter non_blank lines.
Proof.
  induction lines as [|l [|l' rest] IH]; [done| |].
  - simpl. destruct l; [done|done].
  - change (drop_empty_last (l :: l' :: rest))
      with (l :: drop_empty_last (l' :: rest)).
    rewrite !(filter_cons _ l), IH. done.
Qed.

Lemma non_blank_strip_cr line :
  JsText.truthy (JsText.trim (strip_cr line))
  = JsText.truthy (JsText.trim line).
Proof.
  unfold JsText.trim. by rewrite !text_truthy_trim, all_white_strip_cr.
Qed.

(** The streaming loop parses the non-blank lines in order and appends
    the records to [data]. *)
Lemma for_await_lines_spec lines data :
  for_await_lines lines data
  = outcome_bind (map_throwing parse_line (filter non_blank lines))
      (λ records, Returned (data ++ records)).
Proof.
  revert data. induction lines as [|line rest IH]; intros data.
  { simpl. by rewrite app_nil_r. }
  simpl. rewrite filter_cons.
  destruct (JsText.truthy (JsText.trim line)) eqn:Hline.
  - rewrite decide_True by done. simpl.
    destruct (parse_line line) as [record|e]; [|done]. simpl.
    rewrite IH.
    destruct (map_throwing parse_line (filter non_blank rest)); [|done].
    simpl. by rewrite <- app_assoc.
  - rewrite decide_False by done. apply IH.
Qed.

Section TrailingCr.
Hypothesis parse_ignores_cr :
  ∀ s : JsText.text, JSON_parse (s ++ [JsText.CR]) = JSON_parse s.

Lemma parse_line_strip_cr line :
  parse_line (strip_cr line) = parse_line line.
Proof.
  unfold parse_line.
  destruct (strip_cr_cases line) as [->|Hl]; [done|].
  rewrite Hl at 2. by rewrite parse_ignores_cr.
Qed.

Lemma map_throwing_strip_cr lines :
  map_throwing parse_line (filter non_blank (strip_cr <$> lines))
  = map_throwing parse_line (filter non_blank lines).
Proof.
  induction lines as [|l rest IH]; [done|].
  rewrite fmap_cons, !filter_cons, non_blank_strip_cr.
  destruct (decide (JsText.truthy (JsText.trim l) = true)); [|done].
  simpl. by rewrite parse_line_strip_cr, IH.
Qed.

Lemma readJSONLStream_readJSONL files filePath :
  (∀ content, files !! filePath = Some content →
              cr_only_before_lf content = true
              ∧ no_line_separator content = true) →
  readJSONLStream files filePath = readJSONL files filePath.
Proof.
  intros Hcr. unfold readJSONLStream, readJSONL, readFileSync.
  destruct (files !! filePath) as [content|] eqn:Hfile; [|done].
  destruct (Hcr content eq_refl) as [Hlone Hsep].
  simpl. rewrite for_await_lines_spec. unfold rl_lines.
  rewrite filter_drop_empty_last, rl_lines_from_split by done.
  rewrite map_throwing_strip_cr.
  by destruct (map_throwing parse_line _).
Qed.
End TrailingCr.

Lemma map_throwing_parse_Forall2 lines records :
  map_throwing parse_line lines = Returned records →
  Forall2 (λ line record, JSON_parse line = Some record) lines records.
Proof.
  revert records. induction lines as [|l rest IH]; intros records; simpl.
  { intros [= <-]. constructor. }
  unfold parse_line at 1. destruct (JSON_parse l) as [r|] eqn:Hl; [|done].
  simpl. destruct (map_throwing parse_line rest) as [rs|]; [|done].
  simpl. intros [= <-]. constructor; auto.
Qed.

Lemma non_blank_lines_filter content :
  non_blank_lines content = filter non_blank (JsText.split JsText.LF content).
Proof.
  unfold non_blank_lines. apply list_filter_iff. intros line.
  unfold JsText.trim. rewrite text_truthy_trim.
  by destruct (forallb JsText.is_white_space line).
Qed.

End ReaderFacts.

Section ReaderClaims.
Import ImportConvexData Vocabulary Samples.

Lemma decode_texts_ignores_cr {T} (table : list (JsText.text * T))
    (s : JsText.text) :
  @JSON_parse T (decode_texts table) (s ++ [JsText.CR])
  = @JSON_parse T (decode_texts table) s.
Proof. unfold JSON_parse, decode_texts. by rewrite trim_with_snoc. Qed.

(** C6, counterexample.  (1) On the text [1 CR 2] the eager reader sees
    one line, which is not a JSON text, and throws; the streaming reader
    sees the two lines [1] and [2] and returns two records.  (2) On a line
    that is a JSON string with a raw U+2028 in it, the eager reader
    returns the record of the line; the streaming reader ends a line at
    the U+2028, sees two pieces that are no JSON texts, and throws. *)
Lemma readers_differ_on_other_line_ends :
  @readJSONL Z numbers lone_cr_file "numbers.jsonl" = Thrown SyntaxError
  ∧ @readJSONLStream Z numbers lone_cr_file "numbers.jsonl" = Returned [1; 2]
  ∧ @readJSONL Z separated_name separator_file "names.jsonl" = Returned [1]
  ∧ @readJSONLStream Z separated_name separator_file "names.jsonl"
    = Thrown SyntaxError.
Proof. repeat split; vm_compute; reflexivity. Qed.

(** C6, amended.  When every carriage return of the file is immediately
    followed by a line feed, the file holds neither U+2028 nor U+2029,
    and the decoder ignores a carriage return at the end of a line (as
    [JSON.parse] ignores white space), the streaming reader and the eager
    reader give the same outcome; a returned sequence holds one decoded
    record per non-blank line, in file order; and the readers do return
    whenever every non-blank line decodes. *)
Theorem readers_agree {T : Type} `{JSONParse T}
    (files : gmap string JsText.text) (filePath : string)
    (content : JsText.text) :
  (∀ s : JsText.text, JSON_parse (s ++ [JsText.CR]) = JSON_parse s) →
  files !! filePath = Some content →
  cr_only_before_lf content = true →
  no_line_separator content = true →
  readJSONLStream files filePath = readJSONL files filePath
  ∧ (∀ records, readJSONL files filePath = Returned records →
       Forall2 (λ line record, JSON_parse line = Some record)
               (non_blank_lines content) records)
  ∧ (Forall (λ line, is_Some (JSON_parse line)) (non_blank_lines content) →
     ∃ records, readJSONL files filePath = Returned records).
Proof.
  intros Hparse Hfile Hcr Hsep. split; [|split].
  - apply readJSONLStream_readJSONL; [done|].
    intros content' Hfile'. by simplify_eq.
  - intros records. unfold readJSONL, readFileSync. rewrite Hfile. simpl.
    rewrite non_blank_lines_filter. apply map_throwing_parse_Forall2.
  - unfold readJSONL, readFileSync. rewrite Hfile. simpl.
    rewrite non_blank_lines_filter.
    induction 1 as [|line rest [record Hline] _ [records IH]]; [by eexists|].
    exists (record :: records). simpl. unfold parse_line at 1.
    by rewrite Hline, IH.
Qed.

Lemma readers_agree_witness :
  @readJSONLStream Z numbers crlf_file "numbers.jsonl"
  = @readJSONL Z numbers crlf_file "numbers.jsonl"
  ∧ @readJSONL Z numbers crlf_file "numbers.jsonl" = Returned [1; 2].
Proof.
  split; [|vm_compute; reflexivity].
  refine (proj1 (@readers_agree Z numbers crlf_file "numbers.jsonl" _ _ _ _ _)).
  - intros s. apply decode_texts_ignores_cr.
  - vm_compute; reflexivity.
  - vm_compute; reflexivity.
  - vm_compute; reflexivity.
Defined.

End ReaderClaims.

Section ReaderErrors.
Import ImportConvexData Vocabulary.
Context {T : Type} `{JSONParse T}.

Lemma map_throwing_parse_throws (lines : list JsText.text) (e : Exception) :
  map_throwing (parse_line (T := T)) lines = Thrown e ↔
  e = SyntaxError ∧ Exists (λ line, JSON_parse (T := T) line = None) lines.
Proof.
  revert e. induction lines as [|line rest IH]; intros e; simpl.
  { split; [done | intros [_ Hex]; inversion Hex]. }
  unfold parse_line at 1. destruct (JSON_parse line) as [record|] eqn:Hline.
  - simpl. destruct (map_throwing parse_line rest) as [records|e'] eqn:Hrest.
    + simpl. split; [done|]. intros [He Hex].
      inversion Hex as [? ? Hhead|? ? Htail]; subst; [by rewrite Hline in Hhead|].
      by pose proof (proj2 (IH SyntaxError) (conj eq_refl Htail)).
    + simpl. split.
      * intros [= ->]. destruct (proj1 (IH e) eq_refl) as [-> Hex].
        split; [done | by right].
      * intros [-> Hex].
        inversion Hex as [? ? Hhead|? ? Htail]; subst;
          [by rewrite Hline in Hhead|].
        by apply (IH SyntaxError).
  - simpl. split; [intros [= <-]; split; [done | by left] | by intros [-> _]].
Qed.

(** The eager reader throws in two cases only: the file cannot be opened
    (the exception names the path), or the file is opened and one of its
    non-blank lines is not a JSON text (a syntax error).  Otherwise it
    returns. *)
Theorem readJSONL_throws_iff (files : gmap string JsText.text)
    (filePath : string) (e : Exception) :
  readJSONL (T := T) files filePath = Thrown e ↔
  (files !! filePath = None ∧ e = ENOENT filePath)
  ∨ (∃ content, files !! filePath = Some content ∧ e = SyntaxError
       ∧ Exists (λ line, JSON_parse (T := T) line = None)
                (non_blank_lines content)).
Proof.
  unfold readJSONL, readFileSync.
  destruct (files !! filePath) as [content|]; simpl.
  - rewrite <- non_blank_lines_filter, map_throwing_parse_throws. split.
    + intros [-> Hex]. right. by exists content.
    + intros [[? _]|(content' & [= <-] & -> & Hex)]; done.
  - split.
    + intros [= <-]. by left.
    + intros [[_ ->]|(content & ? & _)]; done.
Qed.

End ReaderErrors.

(** ** The batch insert loop *)

Section BatchFacts.
Import ImportConvexData Vocabulary.
Context {St A : Type}.
Variable insert_values : list A → St → Outcome unit * St.
Variable log_progress : nat → list A → St → St.
Variable B : nat.
Variable xs : list A.
Hypothesis B_positive : (0 < B)%nat.

Lemma slice_step (i : nat) : Js.slice i (i + B) xs = take B (drop i xs).
Proof. unfold Js.slice. f_equal. lia. Qed.

(** From index [i], and with fuel for the remaining records, the loop
    hands the insert the chunks of the records from [i] on, one after the
    other, and stops at the first insert that throws; each chunk holds
    between one and [B] records, and each but the last holds exactly
    [B]. *)
Lemma insert_loop_chunks (fuel i : nat) :
  (length xs - i ≤ fuel)%nat →
  ∃ chunks,
    concat chunks = drop i xs
    ∧ Forall (λ chunk, (1 ≤ length chunk ≤ B)%nat) chunks
    ∧ (∀ k chunk, chunks !! k = Some chunk → (S k < length chunks)%nat →
                  length chunk = B)
    ∧ ∀ st, insert_loop insert_values log_progress B xs fuel i st
            = Some (write_chunks insert_values log_progress i chunks st).
Proof.
  revert i. induction fuel as [|fuel IH]; intros i Hfuel.
  - exists []. rewrite drop_ge by lia.
    split_and!; [done | constructor | by intros [] |].
    intros st. cbn [insert_loop].
    destruct (Nat.ltb_spec i (length xs)); [lia | done].
  - destruct (Nat.ltb_spec i (length xs)) as [Hi|Hi].
    + destruct (IH (i + B)%nat) as (chunks & Hcat & Hlen & Hfull & Hrun); [lia|].
      assert (chunks ≠ [] → length (take B (drop i xs)) = B) as Hwhole.
      { intros Hne. rewrite length_take, length_drop.
        destruct chunks as [|c cs]; [done|].
        pose proof (f_equal length Hcat) as Hl.
        rewrite length_drop in Hl. cbn [concat] in Hl. rewrite length_app in Hl.
        inversion Hlen as [|? ? Hc _]; subst. lia. }
      exists (take B (drop i xs) :: chunks). split_and!.
      * cbn [concat]. rewrite Hcat, <- drop_drop. apply take_drop.
      * constructor; [|done]. rewrite length_take, length_drop. lia.
      * intros [|k] chunk Hk Hlast; simplify_eq/=.
        -- apply Hwhole. destruct chunks; [simpl in Hlast; lia | done].
        -- apply (Hfull k); [done | lia].
      * intros st. cbn [insert_loop write_chunks].
        destruct (Nat.ltb_spec i (length xs)); [|lia].
        rewrite slice_step.
        destruct (insert_values (take B (drop i xs)) st) as [[[]|e] st'];
          [|done].
        rewrite Hrun. destruct chunks as [|c cs]; [done|].
        by rewrite Hwhole.
    + exists []. rewrite drop_ge by lia.
      split_and!; [done | constructor | by intros [] |].
      intros st. cbn [insert_loop].
      destruct (Nat.ltb_spec i (length xs)); [lia | done].
Qed.

(** The whole loop: the chunks partition the input. *)
Lemma insert_in_batches_chunks :
  ∃ chunks,
    is_partition B xs chunks
    ∧ ∀ st, insert_in_batches insert_values log_progress B xs st
            = Some (write_chunks insert_values log_progress 0 chunks st).
Proof.
  destruct (insert_loop_chunks (length xs) 0)
    as (chunks & Hcat & Hlen & Hfull & Hrun); [lia|].
  exists chunks. split; [|done]. split; [done|].
  intros k chunk Hk. split; [|by apply (Hfull k)].
  rewrite Forall_lookup in Hlen. by apply (Hlen k).
Qed.

End BatchFacts.

(** ** The script's steps, one by one *)

Section ScriptSteps.
Import ImportConvexData Vocabulary.

Lemma world_step_refl (P : Store → Store → Prop) w :
  P (db w) (db w) → world_step P w w.
Proof.
  intros HP. repeat split; [|done]. exists []. by rewrite app_nil_r.
Qed.

Lemma add_lines_nil w : add_lines [] w = w.
Proof. destruct w. unfold add_lines. simpl. by rewrite app_nil_r. Qed.

Lemma add_lines_app l1 l2 w : add_lines l2 (add_lines l1 w) = add_lines (l1 ++ l2) w.
Proof. unfold add_lines. simpl. by rewrite app_assoc. Qed.

Lemma console_write_run line w :
  console_write line w = (Returned tt, add_lines [line] w).
Proof. done. Qed.

(** Binding a step whose result is known. *)
Lemma bind_returned {A C} (m : Script A) (k : A → Script C) w a w' :
  m w = (Returned a, w') → (m ≫= k) w = k a w'.
Proof. intros Hm. unfold mbind, script_bind. by rewrite Hm. Qed.

Lemma bind_thrown {A C} (m : Script A) (k : A → Script C) w e w' :
  m w = (Thrown e, w') → (m ≫= k) w = (Thrown e, w').
Proof. intros Hm. unfold mbind, script_bind. by rewrite Hm. Qed.

Lemma resolve_parent_run {T R} (parent_id : T → Z)
    (missing : T → Warning) (build : T → Z → R) (parentMap : gmap Z Z)
    (item : T) (w : World) :
  resolve_parent parent_id missing build parentMap item w
  = (Returned (resolved parent_id build parentMap item),
     add_lines
       (option_list (unresolved_warning parent_id build missing parentMap item))
       w).
Proof.
  unfold resolve_parent, unresolved_warning, resolved.
  destruct (parentMap !! parent_id item) as [n|];
    [destruct (Js.truthy_num n)|]; simpl; try done.
  unfold mret, script_ret. by rewrite add_lines_nil.
Qed.


(** The second loop of a parent import: a fold over the source records
    that sets the entry of each record whose key is found, and one
    warning per record whose key is not. *)
Lemma match_by_key_run {T} (key : T → string) (external_id : T → Z)
    (not_found : string → Warning) (keyToIdMap : gmap string Z)
    (data : list T) (externalMap : gmap Z Z) (w : World) :
  match_by_key key external_id not_found keyToIdMap data externalMap w
  = (Returned
       (foldl (λ m item, match truthy_lookup keyToIdMap (key item) with
                         | Some dbId => <[external_id item := dbId]> m
                         | None => m
                         end) externalMap data),
     add_lines (omap (not_found_warning key not_found keyToIdMap) data) w).
Proof.
  revert externalMap w. induction data as [|item rest IH]; intros m w.
  { simpl. by rewrite add_lines_nil. }
  cbn [match_by_key foldl omap list_omap]. unfold not_found_warning at 1.
  destruct (truthy_lookup keyToIdMap (key item)) as [n|] eqn:Hfound;
    unfold truthy_lookup in Hfound;
    destruct (keyToIdMap !! key item) as [n'|];
    try destruct (Js.truthy_num n'); simplify_eq.
  - apply IH.
  - erewrite bind_returned by apply console_write_run.
    rewrite IH. by rewrite add_lines_app.
  - erewrite bind_returned by apply console_write_run.
    rewrite IH. by rewrite add_lines_app.
Qed.

End ScriptSteps.

(** ** The batch loops on the store *)

Section StoreLoops.
Import ImportConvexData Vocabulary.
Context {V : Type}.
Variable statement : list V → Statement.
Variable change : list V → Store → Store.
Variable line : nat → list V → ConsoleLine.
Variable R : list V → Store → Store → Prop.
Hypothesis R_nil : ∀ d, R [] d d.
Hypothesis R_step : ∀ chunk rest d d',
  R rest (change chunk d) d' → R (chunk ++ rest) d d'.

Local Abbreviation write :=
  (write_chunks (λ batch, execute (statement batch) (change batch))
                (λ i batch, add_line (line i batch))).

(** When every insert is accepted the store has changed by all the
    records of the chunks, in order. *)
Lemma write_chunks_returned (i : nat) (chunks : list (list V)) (w w' : World) :
  write i chunks w = (Returned tt, w') →
  world_step (R (concat chunks)) w w'.
Proof.
  revert i w. induction chunks as [|chunk rest IH]; intros i w;
    cbn [write_chunks concat].
  - intros [= <-]. by apply world_step_refl.
  - unfold execute at 1.
    destruct (rejects w (db w) (statement chunk)) as [e|]; [done|].
    intros (He & Hf & Hr & [l Hc] & HR)%IH. simpl in *.
    split_and!; [done | done | done | | by apply R_step].
    exists (line i chunk :: l). by rewrite Hc, <- app_assoc.
Qed.

(** When an insert is rejected the store has changed by the records of
    the chunks before it, and by no other. *)
Lemma write_chunks_thrown (i : nat) (chunks : list (list V)) (w w' : World)
    (e : Exception) :
  write i chunks w = (Thrown e, w') →
  ∃ k, (k < length chunks)%nat
       ∧ world_step (R (concat (take k chunks))) w w'.
Proof.
  revert i w. induction chunks as [|chunk rest IH]; intros i w;
    cbn [write_chunks]; [done|].
  unfold execute at 1.
  destruct (rejects w (db w) (statement chunk)) as [e'|].
  - intros [= <- <-]. exists 0%nat. split; [simpl; lia|].
    by apply world_step_refl.
  - intros (k & Hk & He & Hf & Hr & [l Hc] & HR)%IH. simpl in *.
    exists (S k). split; [lia|]. cbn [take concat].
    split_and!; [done | done | done | | by apply R_step].
    exists (line i chunk :: l). by rewrite Hc, <- app_assoc.
Qed.


End StoreLoops.

Section TableInserts.
Import ImportConvexData Vocabulary.

Lemma batch_size_positive : (0 < BATCH_SIZE)%nat.
Proof. unfold BATCH_SIZE. lia. Qed.



Lemma with_products_nil d : with_products [] d = d.
Proof. destruct d. unfold with_products. simpl. by rewrite app_nil_r. Qed.

(** The loop with the plain progress line writes the chunks of a
    partition of its input. *)
Lemma insert_batches_chunks {V} (insert_values : list V → Script unit)
    (B : nat) (xs : list V) :
  (0 < B)%nat →
  ∃ chunks,
    is_partition B xs chunks
    ∧ ∀ w, insert_batches insert_values B xs w
           = write_chunks insert_values
               (λ i _, add_line (LogBatch (batch_number i B)
                                          (total_batches (length xs) B)))
               0 chunks w.
Proof.
  intros HB.
  destruct (insert_in_batches_chunks insert_values
              (λ i _, add_line (LogBatch (batch_number i B)
                                         (total_batches (length xs) B)))
              B xs HB) as (chunks & Hpart & Hrun).
  exists chunks. split; [done|]. intros w.
  unfold insert_batches. by rewrite Hrun.
Qed.

Lemma insert_product_batches_chunks (B : nat) (xs : list Product.row) :
  (0 < B)%nat →
  ∃ chunks,
    is_partition B xs chunks
    ∧ ∀ w, insert_product_batches B xs w
           = write_chunks insert_products
               (λ i batch, add_line (LogProductBatch (batch_number i B)
                                       (total_batches (length xs) B)
                                       (i + length batch) (length xs)))
               0 chunks w.
Proof.
  intros HB.
  destruct (insert_in_batches_chunks insert_products
              (λ i batch, add_line (LogProductBatch (batch_number i B)
                                      (total_batches (length xs) B)
                                      (i + length batch) (length xs)))
              B xs HB) as (chunks & Hpart & Hrun).
  exists chunks. split; [done|]. intros w.
  unfold insert_product_batches. by rewrite Hrun.
Qed.



Lemma insert_batches_products (B : nat) (xs : list Product.row)
    (w w' : World) :
  (0 < B)%nat →
  insert_product_batches B xs w = (Returned tt, w') →
  world_step (λ d d', d' = with_products xs d) w w'.
Proof.
  intros HB.
  destruct (insert_product_batches_chunks B xs HB) as (chunks & [<- _] & ->).
  apply (write_chunks_returned InsertProducts
           (λ batch d, with_products batch d) _
           (λ xs d d', d' = with_products xs d)).
  - intros d. by rewrite with_products_nil.
  - intros chunk rest d d' ->. unfold with_products. simpl.
    by rewrite <- app_assoc.
Qed.

(** A rejected insert of products leaves in the table the products of
    the chunks before it. *)
Lemma insert_batches_products_thrown (B : nat) (xs : list Product.row)
    (w w' : World) (e : Exception) :
  (0 < B)%nat →
  insert_product_batches B xs w = (Thrown e, w') →
  ∃ written rest, xs = written ++ rest ∧ rest ≠ []
                  ∧ products (db w') = products (db w) ++ written.
Proof.
  intros HB.
  destruct (insert_product_batches_chunks B xs HB)
    as (chunks & [<- Hlen] & ->).
  intros (k & Hk & _ & _ & _ & _ & ->)%(write_chunks_thrown InsertProducts
           (λ batch d, with_products batch d) _
           (λ xs d d', d' = with_products xs d)).
  - exists (concat (take k chunks)), (concat (drop k chunks)).
    split; [by rewrite <- concat_app, take_drop|]. split; [|done].
    destruct (lookup_lt_is_Some_2 chunks k Hk) as [chunk Hchunk].
    rewrite (drop_S _ _ _ Hchunk). cbn [concat].
    destruct (Hlen k chunk Hchunk) as [Hone _].
    destruct chunk; [simpl in Hone; lia | done].
  - intros d. by rewrite with_products_nil.
  - intros chunk rest d d' ->. unfold with_products. simpl.
    by rewrite <- app_assoc.
Qed.

Lemma assign_ids_values {V R} (with_id : Z → V → R) (values_of : R → V)
    (next : Z) (vs : list V) :
  (∀ i v, values_of (with_id i v) = v) →
  values_of <$> assign_ids with_id next vs = vs.
Proof.
  intros Hv. revert next. induction vs as [|v rest IH]; intros next; [done|].
  simpl. by rewrite Hv, IH.
Qed.

Lemma insert_batches_collections (xs : list Collection.values) (w w' : World) :
  insert_batches insert_collections BATCH_SIZE xs w = (Returned tt, w') →
  world_step (collections_added xs) w w'.
Proof.
  destruct (insert_batches_chunks insert_collections BATCH_SIZE xs
              batch_size_positive) as (chunks & [<- _] & ->).
  apply (write_chunks_returned InsertCollections
           (λ batch d, mkStore (users d)
              (collections d ++ assign_ids Collection.with_id
                 (fresh_id (Collection.id <$> collections d)) batch)
              (categories d) (subcollections d) (subcategories d) (products d))
           _ collections_added).
  - intros d. exists []. destruct d. simpl. by rewrite app_nil_r.
  - intros chunk rest d d' (new & -> & Hnew). simpl.
    eexists (_ ++ new). split; [by rewrite <- app_assoc|].
    rewrite fmap_app, Hnew.
    by rewrite (assign_ids_values Collection.with_id collection_values)
      by (by intros ? []).
Qed.




End TableInserts.

Section BatchClaims.
Import ImportConvexData Vocabulary Samples.

(** C5, counterexample.  The slug is the key of a category, and the third
    of three categories has the slug of the first.  With chunks of two the
    store accepts the first chunk and rejects the second: the loop throws,
    and the categories written are the first two, not the input. *)
Lemma rejected_chunk_is_not_written :
  insert_batches insert_categories 2 three_categories keyed_world
  = (Thrown DatabaseError,
     mkWorld ∅ ∅ enforces_category_slugs
       (mkStore [] [] (take 2 three_categories) [] [] [])
       [LogBatch 1 2]).
Proof. by vm_compute. Qed.

(** C5, amended.  For every sequence of records and every chunk size
    [B > 0] there are chunks that partition the sequence (they concatenate
    to it, every chunk holds between 1 and [B] records and every chunk but
    the last holds exactly [B]) such that the batch loop, for any insert,
    hands the chunks to the insert one after the other, in order, reports
    progress after each insert that returns, and stops at the first insert
    that throws, with its exception.  This holds of the loop of the first
    four imports and of the loop of the product import.  On the store: when
    the product loop returns, the product table has grown by the input, in
    order; when it throws, the table has grown by a proper prefix of the
    input. *)
Theorem batches_partition_input {V} (insert_values : list V → Script unit)
    (B : nat) (xs : list V) (productsToInsert : list Product.row) :
  (0 < B)%nat →
  (∃ chunks,
     is_partition B xs chunks
     ∧ ∀ w, insert_batches insert_values B xs w
            = write_chunks insert_values
                (λ i _, add_line (LogBatch (batch_number i B)
                                           (total_batches (length xs) B)))
                0 chunks w)
  ∧ (∃ chunks,
       is_partition B productsToInsert chunks
       ∧ ∀ w, insert_product_batches B productsToInsert w
              = write_chunks insert_products
                  (λ i batch,
                     add_line (LogProductBatch (batch_number i B)
                                 (total_batches (length productsToInsert) B)
                                 (i + length batch) (length productsToInsert)))
                  0 chunks w)
  ∧ (∀ w w', insert_product_batches B productsToInsert w = (Returned tt, w') →
             products (db w') = products (db w) ++ productsToInsert)
  ∧ (∀ w w' e, insert_product_batches B productsToInsert w = (Thrown e, w') →
               ∃ written rest,
                 productsToInsert = written ++ rest ∧ rest ≠ []
                 ∧ products (db w') = products (db w) ++ written).
Proof.
  intros HB. split_and!.
  - by apply insert_batches_chunks.
  - by apply insert_product_batches_chunks.
  - intros w w' Hrun.
    by apply insert_batches_products in Hrun as (_ & _ & _ & _ & ->).
  - intros w w' e. by apply insert_batches_products_thrown.
Qed.

Lemma batches_partition_input_witness :
  (∃ chunks,
     is_partition 2 three_categories chunks
     ∧ ∀ w, insert_batches insert_categories 2 three_categories w
            = write_chunks insert_categories
                (λ i _, add_line (LogBatch (batch_number i 2)
                                           (total_batches 3 2)))
                0 chunks w)
  ∧ (∃ chunks,
       is_partition 2 three_products chunks
       ∧ ∀ w, insert_product_batches 2 three_products w
              = write_chunks insert_products
                  (λ i batch,
                     add_line (LogProductBatch (batch_number i 2)
                                 (total_batches 3 2)
                                 (i + length batch) 3))
                  0 chunks w)
  ∧ (∀ w w', insert_product_batches 2 three_products w = (Returned tt, w') →
             products (db w') = products (db w) ++ three_products)
  ∧ (∀ w w' e, insert_product_batches 2 three_products w = (Thrown e, w') →
               ∃ written rest,
                 three_products = written ++ rest ∧ rest ≠ []
                 ∧ products (db w') = products (db w) ++ written).
Proof.
  apply (batches_partition_input insert_categories 2 three_categories
           three_products).
  lia.
Defined.

Example batches_of_three_by_two :
  insert_product_batches 2 three_products blank_world
  = (Returned tt,
     mkWorld ∅ ∅ accepts_all (mkStore [] [] [] [] [] three_products)
       [LogProductBatch 1 2 2 3; LogProductBatch 2 2 3 3]).
Proof. by vm_compute. Qed.

End BatchClaims.

(** ** Maps built by a loop of [set] calls *)

Section SetLoop.
Context {K : Type} `{Countable K} {V X : Type}.
Variable key : X → K.
Variable value : X → option V.

Local Abbreviation set_all :=
  (foldl (λ (m : gmap K V) (x : X),
            match value x with
            | Some v => <[key x := v]> m
            | None => m
            end)).

Lemma set_all_other (acc : gmap K V) (xs : list X) (k : K) :
  (∀ x, x ∈ xs → is_Some (value x) → key x ≠ k) →
  set_all acc xs !! k = acc !! k.
Proof.
  revert acc. induction xs as [|x rest IH]; intros acc Hk; [done|].
  cbn [foldl]. rewrite IH by (intros y Hy; apply Hk; by right).
  destruct (value x) as [v|] eqn:Hv; [|done].
  apply lookup_insert_ne. apply Hk; [by left | by rewrite Hv].
Qed.

(** An entry of the result was there at the start or was set in the loop. *)
Lemma set_all_lookup_Some (acc : gmap K V) (xs : list X) (k : K) (v : V) :
  set_all acc xs !! k = Some v →
  acc !! k = Some v ∨ ∃ x, x ∈ xs ∧ key x = k ∧ value x = Some v.
Proof.
  revert acc. induction xs as [|x rest IH]; intros acc; [by left|].
  cbn [foldl]. intros [Hacc|(y & Hy & Hky & Hvy)]%IH.
  - destruct (value x) as [v'|] eqn:Hv; [|by left].
    destruct (decide (key x = k)) as [Hk|Hk].
    + rewrite <- Hk, lookup_insert_eq in Hacc. simplify_eq.
      right. exists x. split; [by left | done].
    + rewrite lookup_insert_ne in Hacc by done. by left.
  - right. exists y. split; [by right | done].
Qed.

(** With pairwise distinct keys every [set] of the loop survives. *)
Lemma set_all_lookup_NoDup (acc : gmap K V) (xs : list X) (x : X) (v : V) :
  NoDup (key <$> xs) → x ∈ xs → value x = Some v →
  set_all acc xs !! key x = Some v.
Proof.
  revert acc. induction xs as [|y rest IH]; intros acc Hnd Hx Hv.
  { by apply elem_of_nil in Hx. }
  rewrite fmap_cons in Hnd. apply NoDup_cons in Hnd as [Hy Hnd].
  cbn [foldl]. apply elem_of_cons in Hx as [->|Hx]; [|by apply IH].
  rewrite set_all_other, Hv; [apply lookup_insert_eq|].
  intros z Hz _ Hkey. apply Hy. rewrite <- Hkey.
  by apply list_elem_of_fmap_2.
Qed.

End SetLoop.

(** ** The key remapper *)

Section RemapFacts.
Import ImportConvexData Vocabulary.
Context {T R : Type}.
Variable item_key : T → string.
Variable external_id : T → Z.
Variable row_key : R → string.
Variable row_id : R → Z.
Variable not_found : string → Warning.

Lemma key_to_id_map_Some (rows : list R) (k : string) (n : Z) :
  key_to_id_map row_key row_id rows !! k = Some n →
  ∃ row, row ∈ rows ∧ row_key row = k ∧ row_id row = n.
Proof.
  intros Hk.
  apply (set_all_lookup_Some row_key (λ row, Some (row_id row))) in Hk
    as [Hk|(row & Hrow & Hkey & Hid)]; [done|].
  exists row. by simplify_eq.
Qed.

Lemma key_to_id_map_NoDup (rows : list R) (row : R) :
  NoDup (row_key <$> rows) → row ∈ rows →
  key_to_id_map row_key row_id rows !! row_key row = Some (row_id row).
Proof.
  intros Hnd Hrow.
  by apply (set_all_lookup_NoDup row_key (λ row, Some (row_id row))).
Qed.

Lemma truthy_lookup_Some (m : gmap string Z) (k : string) (n : Z) :
  truthy_lookup m k = Some n ↔ m !! k = Some n ∧ n ≠ 0.
Proof.
  unfold truthy_lookup, Js.truthy_num.
  destruct (m !! k) as [n'|]; [|split; [done | by intros [? _]]].
  destruct (Z.eqb_spec n' 0) as [->|Hn]; simpl; split.
  - done.
  - by intros [[= <-] Hn].
  - by intros [= <-].
  - by intros [[= <-] _].
Qed.

Lemma NoDup_fmap_eq (data : list T) (x y : T) :
  NoDup (external_id <$> data) → x ∈ data → y ∈ data →
  external_id x = external_id y → x = y.
Proof.
  induction data as [|z rest IH]; [by intros _ ?%elem_of_nil|].
  rewrite fmap_cons. intros [Hz Hnd]%NoDup_cons Hx Hy Heq.
  apply elem_of_cons in Hx as [->|Hx]; apply elem_of_cons in Hy as [->|Hy].
  - done.
  - exfalso. apply Hz. rewrite Heq. by apply list_elem_of_fmap_2.
  - exfalso. apply Hz. rewrite <- Heq. by apply list_elem_of_fmap_2.
  - by apply IH.
Qed.

(** The two loops of a parent import, over any read-back rows. *)
Lemma remap_of_rows (data : list T) (rows : list R) (w : World) :
  NoDup (row_key <$> rows) →
  Forall (λ row, row_id row ≠ 0) rows →
  NoDup (external_id <$> data) →
  remapper_correct
    (λ data rows,
       match_by_key item_key external_id not_found
         (key_to_id_map row_key row_id rows) data ∅)
    item_key external_id row_key row_id not_found data rows w.
Proof.
  intros Hkeys Hids Hexts. unfold remapper_correct.
  eexists _, _. split; [apply match_by_key_run|].
  assert (∀ e n,
    foldl (λ m item,
             match truthy_lookup (key_to_id_map row_key row_id rows)
                     (item_key item) with
             | Some dbId => <[external_id item := dbId]> m
             | None => m
             end) (∅ : gmap Z Z) data !! e = Some n →
    ∃ item row, item ∈ data ∧ external_id item = e
                ∧ row ∈ rows ∧ row_key row = item_key item ∧ row_id row = n)
    as Hsound.
  { intros e n [?|(item & Hitem & Hext & Hfound)]%set_all_lookup_Some; [done|].
    apply truthy_lookup_Some in Hfound as [Hfound _].
    apply key_to_id_map_Some in Hfound as (row & Hrow & Hkey & Hid).
    by exists item, row. }
  split.
  - intros e n. split; [apply Hsound|].
    intros (item & row & Hitem & <- & Hrow & Hkey & <-).
    apply (set_all_lookup_NoDup external_id
             (λ item, truthy_lookup (key_to_id_map row_key row_id rows)
                        (item_key item))); [done | done |].
    apply truthy_lookup_Some. split.
    + rewrite <- Hkey. by apply key_to_id_map_NoDup.
    + rewrite Forall_forall in Hids. by apply Hids.
  - intros item Hitem Hnone. split.
    + apply list_elem_of_omap. exists item. split; [done|].
      unfold not_found_warning.
      destruct (truthy_lookup _ _) as [n|] eqn:Hfound; [|done].
      apply truthy_lookup_Some in Hfound as [Hfound _].
      apply key_to_id_map_Some in Hfound as (row & Hrow & Hkey & _).
      by destruct (Hnone row).
    + destruct (foldl _ _ _ !! _) as [n|] eqn:Hentry; [|done].
      apply Hsound in Hentry as (item' & row & Hitem' & Hext & Hrow & Hkey & _).
      apply (NoDup_fmap_eq data item' item) in Hext as ->; [|done..].
      by destruct (Hnone row).
Qed.

End RemapFacts.

Section RemapClaims.
Import ImportConvexData Vocabulary Samples.

(** C4, counterexample.  Two read-back subcollections share a composite
    key and have the identifiers 1 and 2.  The remapping sends both
    external identifiers to 2, the identifier of the later row: it is not
    the remapping of the specification, which would also send them to 1. *)
Lemma remap_keeps_last_of_equal_keys :
  build_subcollection_map twin_records twin_rows blank_world
  = (Returned {[10 := 2; 11 := 2]}, blank_world)
  ∧ (is_remap_of subcollection_item_key ConvexSubcollection.external_id
       subcollection_row_key Subcollection.id twin_records twin_rows
       {[10 := 2; 11 := 2]} → False).
Proof.
  split; [by vm_compute|].
  intros Hremap.
  assert (({[10 := 2; 11 := 2]} : gmap Z Z) !! 10 = Some 1) as Hone.
  { apply Hremap.
    exists (ConvexSubcollection.mk 10 "men" "Shirts"),
           (Subcollection.mk 1 "Shirts" "men").
    repeat split; [by left | by left]. }
  by vm_compute in Hone.
Qed.

(** C4, amended.  When the read-back rows have pairwise distinct natural
    keys and non-zero identifiers, and the source records have pairwise
    distinct external identifiers, the remapping of a parent import sends
    an external identifier to [n] exactly when some read-back row with the
    natural key of its source record has the identifier [n]; and every
    source record whose natural key no read-back row carries is warned
    about and gets no entry.  The natural key is the slug for collections
    and the composite [name::category_slug] for subcollections. *)
Theorem remap_matches_read_back_rows
    (collectionData : list ConvexCollection.t)
    (allCollections : list Collection.row)
    (subcollectionData : list ConvexSubcollection.t)
    (allSubcollections : list Subcollection.row) (w : World) :
  NoDup (collection_slug_key <$> allCollections) →
  Forall (λ row, Collection.id row ≠ 0) allCollections →
  NoDup (ConvexCollection.external_id <$> collectionData) →
  NoDup (subcollection_row_key <$> allSubcollections) →
  Forall (λ row, Subcollection.id row ≠ 0) allSubcollections →
  NoDup (ConvexSubcollection.external_id <$> subcollectionData) →
  remapper_correct build_collection_map
    ConvexCollection.slug ConvexCollection.external_id
    collection_slug_key Collection.id CollectionNotFoundAfterInsert
    collectionData allCollections w
  ∧ remapper_correct build_subcollection_map
      subcollection_item_key ConvexSubcollection.external_id
      subcollection_row_key Subcollection.id SubcollectionNotFoundAfterInsert
      subcollectionData allSubcollections w.
Proof.
  intros Hc1 Hc2 Hc3 Hs1 Hs2 Hs3. split.
  - by apply (remap_of_rows ConvexCollection.slug ConvexCollection.external_id
                collection_slug_key Collection.id CollectionNotFoundAfterInsert).
  - by apply (remap_of_rows subcollection_item_key
                ConvexSubcollection.external_id subcollection_row_key
                Subcollection.id SubcollectionNotFoundAfterInsert).
Qed.

Lemma remap_matches_read_back_rows_witness :
  remapper_correct build_collection_map
    ConvexCollection.slug ConvexCollection.external_id
    collection_slug_key Collection.id CollectionNotFoundAfterInsert
    collection_records collection_rows blank_world
  ∧ remapper_correct build_subcollection_map
      subcollection_item_key ConvexSubcollection.external_id
      subcollection_row_key Subcollection.id SubcollectionNotFoundAfterInsert
      subcollection_records subcollection_rows blank_world.
Proof.
  apply (remap_matches_read_back_rows collection_records collection_rows
           subcollection_records subcollection_rows blank_world);
    compute_done.
Defined.

Example remap_of_sample_collections :
  build_collection_map collection_records collection_rows blank_world
  = (Returned {[101 := 1; 102 := 2]},
     add_lines [Warn (CollectionNotFoundAfterInsert "garden")] blank_world).
Proof. by vm_compute. Qed.

End RemapClaims.

(** ** The five imports *)

Section ImportRuns.
Import ImportConvexData Vocabulary.
Context `{JSONParse ConvexCollection.t} `{JSONParse ConvexCategory.t}
        `{JSONParse ConvexSubcollection.t} `{JSONParse ConvexSubcategory.t}
        `{JSONParse ConvexProduct.t}.

Lemma bind_lift_outcome {A C} (f : World → Outcome A) (k : A → Script C) w :
  (lift_outcome f ≫= k) w
  = match f w with
    | Returned a => k a w
    | Thrown e => (Thrown e, w)
    end.
Proof. unfold mbind, script_bind, lift_outcome. by destruct (f w). Qed.

Lemma world_step_add_lines_l (P : Store → Store → Prop) lines w w' :
  world_step P (add_lines lines w) w' → world_step P w w'.
Proof.
  intros (He & Hf & Hr & [l Hc] & HP).
  split_and!; [done | done | done | | done].
  exists (lines ++ l). simpl in Hc. by rewrite Hc, app_assoc.
Qed.

Lemma world_step_add_lines_r (P : Store → Store → Prop) lines w w' :
  world_step P w w' → world_step P w (add_lines lines w').
Proof.
  intros (He & Hf & Hr & [l Hc] & HP).
  split_and!; [done | done | done | | done].
  exists (l ++ lines). simpl. by rewrite Hc, app_assoc.
Qed.



Lemma select_from_run {R} (s : Statement) (table : Store → list R) w :
  rejects w (db w) s = None →
  select_from s table w = (Returned (table (db w)), w).
Proof. intros Hs. unfold select_from. by rewrite Hs. Qed.




(** A parent import that returns has read its file and inserted a row
    for every record; each entry of the remapping it returns sends the
    external identifier of a record to the non-zero identifier of a row
    of the parent table that carries the natural key of the record. *)
Lemma importCollections_returned (w w' : World) (collectionMap : gmap Z Z) :
  importCollections w = (Returned collectionMap, w') →
  ∃ data,
    readJSONL (fs w) collections_path = Returned data
    ∧ world_step
        (collections_added
           ((λ item, Collection.new (ConvexCollection.name item)
                                    (ConvexCollection.slug item)) <$> data))
        w w'
    ∧ ∀ e n, collectionMap !! e = Some n →
        n ≠ 0
        ∧ ∃ item parent,
            item ∈ data ∧ ConvexCollection.external_id item = e
            ∧ parent ∈ collections (db w')
            ∧ Collection.slug parent = ConvexCollection.slug item
            ∧ Collection.id parent = n.
Proof.
  unfold importCollections.
  erewrite bind_returned by apply console_write_run.
  rewrite bind_lift_outcome. change (fs (add_lines _ w)) with (fs w).
  destruct (readJSONL (fs w) collections_path) as [data|e]; [|done].
  erewrite bind_returned by apply console_write_run.
  match goal with |- context [(insert_batches _ _ ?xs ≫= _) ?w0] =>
    destruct (insert_batches insert_collections BATCH_SIZE xs w0)
      as [[[]|e] w1] eqn:Hins end;
    [|by erewrite bind_thrown by exact Hins].
  erewrite bind_returned by exact Hins.
  apply insert_batches_collections in Hins as Hstep.
  destruct (rejects w1 (db w1) SelectCollections) as [e|] eqn:Hselect.
  { erewrite bind_thrown; [done|]. unfold select_from. by rewrite Hselect. }
  erewrite bind_returned by (by apply select_from_run).
  unfold build_collection_map.
  erewrite bind_returned by apply match_by_key_run.
  erewrite bind_returned by apply console_write_run.
  intros [= <- <-]. exists data. split; [done|]. split.
  - do 2 apply world_step_add_lines_r.
    by do 2 apply world_step_add_lines_l in Hstep.
  - intros e n [?|(item & Hitem & Hext & Hfound)]%set_all_lookup_Some; [done|].
    apply truthy_lookup_Some in Hfound as [Hfound Hn].
    apply key_to_id_map_Some in Hfound as (row & Hrow & Hkey & Hid).
    split; [done|]. by exists item, row.
Qed.








End ImportRuns.

Section ImportInvariant.
Import ImportConvexData Vocabulary.
Context `{JSONParse ConvexCollection.t} `{JSONParse ConvexCategory.t}
        `{JSONParse ConvexSubcollection.t} `{JSONParse ConvexSubcategory.t}
        `{JSONParse ConvexProduct.t}.



(** Without the store URL or the token, [main] fails before it reads or
    writes anything. *)
Theorem main_requires_configuration (w : World) :
  Js.truthy_opt (env w !! "TURSO_DATABASE_URL") = false
  ∨ Js.truthy_opt (env w !! "TURSO_AUTH_TOKEN") = false →
  main w = (Exit1, w).
Proof.
  intros [Hmissing|Hmissing]; unfold main; rewrite Hmissing; [done|].
  by rewrite orb_true_r.
Qed.

End ImportInvariant.

Section ImportClaims.
Import ImportConvexData Vocabulary Samples.




Lemma main_requires_configuration_witness :
  @main decode_collection decode_category decode_subcollection
    decode_subcategory decode_product blank_world = (Exit1, blank_world).
Proof. apply main_requires_configuration. left. by vm_compute. Defined.

Example main_on_export_world :
  fst (@main decode_collection decode_category decode_subcollection
         decode_subcategory decode_product export_world) = Exit0.
Proof. by vm_compute. Qed.

Example imported_categories :
  categories (db imported_world) = [Category.mk "chairs" "Chairs" 1 None]
  ∧ collections (db imported_world) = [Collection.mk 1 "Furniture" "furniture"].
Proof. split; by vm_compute. Qed.

End ImportClaims.

(** ** What a run leaves alone *)

Section Frame.
Import ImportConvexData Vocabulary.

Lemma store_extends_refl d : store_extends d d.
Proof.
  unfold store_extends.
  split_and!; try done; exists []; by rewrite app_nil_r.
Qed.

Lemma store_extends_trans d1 d2 d3 :
  store_extends d1 d2 → store_extends d2 d3 → store_extends d1 d3.
Proof.
  intros (Hu1 & [c1 Hc1] & [k1 Hk1] & [s1 Hs1] & [t1 Ht1] & [p1 Hp1])
         (Hu2 & [c2 Hc2] & [k2 Hk2] & [s2 Hs2] & [t2 Ht2] & [p2 Hp2]).
  unfold store_extends.
  rewrite Hu2, Hu1, Hc2, Hc1, Hk2, Hk1, Hs2, Hs1, Ht2, Ht1, Hp2, Hp1.
  rewrite <- !app_assoc. split_and!; [done | by eexists..].
Qed.

Lemma world_extends_trans w1 w2 w3 :
  world_step store_extends w1 w2 → world_step store_extends w2 w3 →
  world_step store_extends w1 w3.
Proof.
  intros (He1 & Hf1 & Hr1 & [l1 Hc1] & HP1) (He2 & Hf2 & Hr2 & [l2 Hc2] & HP2).
  unfold world_step. rewrite He2, He1, Hf2, Hf1, Hr2, Hr1, Hc2, Hc1.
  split_and!; [done | done | done | | by eapply store_extends_trans].
  exists (l1 ++ l2). by rewrite app_assoc.
Qed.

Lemma world_extends_refl w : world_step store_extends w w.
Proof. apply world_step_refl, store_extends_refl. Qed.

Lemma only_appends_ret {A} (a : A) : only_appends (mret a : Script A).
Proof. intros w. apply world_extends_refl. Qed.

Lemma only_appends_bind {A C} (m : Script A) (k : A → Script C) :
  only_appends m → (∀ a, only_appends (k a)) → only_appends (m ≫= k).
Proof.
  intros Hm Hk w. unfold mbind, script_bind. specialize (Hm w).
  destruct (m w) as [[a|e] w1]; simpl in *; [|done].
  eapply world_extends_trans; [exact Hm | apply Hk].
Qed.

Lemma only_appends_console (line : ConsoleLine) :
  only_appends (console_write line).
Proof.
  intros w. rewrite console_write_run.
  apply world_step_add_lines_r, world_extends_refl.
Qed.

Lemma only_appends_lift {A} (f : World → Outcome A) :
  only_appends (lift_outcome f).
Proof. intros w. apply world_extends_refl. Qed.

Lemma only_appends_select {R} (s : Statement) (table : Store → list R) :
  only_appends (select_from s table).
Proof.
  intros w. unfold select_from.
  destruct (rejects w (db w) s); apply world_extends_refl.
Qed.

Lemma only_appends_execute (s : Statement) (change : Store → Store) :
  (∀ d, store_extends d (change d)) → only_appends (execute s change).
Proof.
  intros Hchange w. unfold execute.
  destruct (rejects w (db w) s); [apply world_extends_refl|].
  split_and!; [done | done | done | | apply Hchange].
  exists []. simpl. by rewrite app_nil_r.
Qed.

Lemma only_appends_map_script {A R} (f : A → Script R) (xs : list A) :
  (∀ x, only_appends (f x)) → only_appends (map_script f xs).
Proof.
  intros Hf. induction xs as [|x rest IH]; [apply only_appends_ret|].
  cbn [map_script]. apply only_appends_bind; [done|]. intros y.
  apply only_appends_bind; [done|]. intros ys. apply only_appends_ret.
Qed.

Lemma only_appends_resolve_parent {T R} (parent_id : T → Z)
    (missing : T → Warning) (build : T → Z → R) (parentMap : gmap Z Z)
    (item : T) :
  only_appends (resolve_parent parent_id missing build parentMap item).
Proof.
  intros w. rewrite resolve_parent_run.
  apply world_step_add_lines_r, world_extends_refl.
Qed.

Lemma only_appends_match_by_key {T} (key : T → string) (external_id : T → Z)
    (not_found : string → Warning) (keyToIdMap : gmap string Z)
    (data : list T) (externalMap : gmap Z Z) :
  only_appends
    (match_by_key key external_id not_found keyToIdMap data externalMap).
Proof.
  intros w. rewrite match_by_key_run.
  apply world_step_add_lines_r, world_extends_refl.
Qed.

Lemma only_appends_write_chunks {V} (insert_values : list V → Script unit)
    (line : nat → list V → ConsoleLine) (i : nat) (chunks : list (list V)) :
  (∀ batch, only_appends (insert_values batch)) →
  only_appends
    (write_chunks insert_values (λ i batch, add_line (line i batch)) i chunks).
Proof.
  intros Hins. revert i. induction chunks as [|chunk rest IH]; intros i w;
    cbn [write_chunks]; [apply world_extends_refl|].
  specialize (Hins chunk w).
  destruct (insert_values chunk w) as [[[]|e] w1]; simpl in *; [|done].
  eapply world_extends_trans; [|apply IH].
  by apply (world_step_add_lines_r _ [line i chunk]).
Qed.

Lemma only_appends_insert_batches {V} (insert_values : list V → Script unit)
    (B : nat) (xs : list V) :
  (0 < B)%nat →
  (∀ batch, only_appends (insert_values batch)) →
  only_appends (insert_batches insert_values B xs).
Proof.
  intros HB Hins w.
  destruct (insert_batches_chunks insert_values B xs HB) as (chunks & _ & ->).
  by apply only_appends_write_chunks.
Qed.

Lemma only_appends_insert_product_batches (B : nat) (xs : list Product.row) :
  (0 < B)%nat →
  only_appends (insert_product_batches B xs).
Proof.
  intros HB w.
  destruct (insert_product_batches_chunks B xs HB) as (chunks & _ & ->).
  apply (only_appends_write_chunks insert_products
           (λ i batch, LogProductBatch (batch_number i B)
                         (total_batches (length xs) B)
                         (i + length batch) (length xs))).
  intros batch. apply only_appends_execute. intros d.
  unfold store_extends. simpl.
  split_and!; [done | | | | | by eexists]; exists []; by rewrite app_nil_r.
Qed.

Lemma only_appends_insert_collections batch :
  only_appends (insert_collections batch).
Proof.
  apply only_appends_execute. intros d. unfold store_extends. simpl.
  split_and!; [done | by eexists | | | | ]; exists []; by rewrite app_nil_r.
Qed.

Lemma only_appends_insert_categories batch :
  only_appends (insert_categories batch).
Proof.
  apply only_appends_execute. intros d. unfold store_extends. simpl.
  split_and!; [done | | by eexists | | | ]; exists []; by rewrite app_nil_r.
Qed.

Lemma only_appends_insert_subcollections batch :
  only_appends (insert_subcollections batch).
Proof.
  apply only_appends_execute. intros d. unfold store_extends. simpl.
  split_and!; [done | | | by eexists | | ]; exists []; by rewrite app_nil_r.
Qed.

Lemma only_appends_insert_subcategories batch :
  only_appends (insert_subcategories batch).
Proof.
  apply only_appends_execute. intros d. unfold store_extends. simpl.
  split_and!; [done | | | | by eexists | ]; exists []; by rewrite app_nil_r.
Qed.

End Frame.

Section FrameClaims.
Import ImportConvexData Vocabulary.
Context `{JSONParse ConvexCollection.t} `{JSONParse ConvexCategory.t}
        `{JSONParse ConvexSubcollection.t} `{JSONParse ConvexSubcategory.t}
        `{JSONParse ConvexProduct.t}.

Local Ltac only_appends_step :=
  first
    [ apply only_appends_ret
    | apply only_appends_console
    | apply only_appends_lift
    | apply only_appends_select
    | apply only_appends_match_by_key
    | apply only_appends_insert_product_batches, batch_size_positive
    | apply only_appends_insert_batches;
        [ apply batch_size_positive
        | first [ apply only_appends_insert_collections
                | apply only_appends_insert_categories
                | apply only_appends_insert_subcollections
                | apply only_appends_insert_subcategories ] ]
    | apply only_appends_map_script; intros ?;
        apply only_appends_resolve_parent
    | apply only_appends_bind; [|intros ?] ].

Lemma only_appends_importCollections : only_appends importCollections.
Proof.
  unfold importCollections, build_collection_map, console_log.
  repeat only_appends_step.
Qed.

Lemma only_appends_importCategories collectionMap :
  only_appends (importCategories collectionMap).
Proof. unfold importCategories, console_log. repeat only_appends_step. Qed.

Lemma only_appends_importSubcollections : only_appends importSubcollections.
Proof.
  unfold importSubcollections, build_subcollection_map, console_log.
  repeat only_appends_step.
Qed.

Lemma only_appends_importSubcategories subcollectionMap :
  only_appends (importSubcategories subcollectionMap).
Proof. unfold importSubcategories, console_log. repeat only_appends_step. Qed.

Lemma only_appends_importProducts : only_appends importProducts.
Proof. unfold importProducts, console_log. repeat only_appends_step. Qed.

Lemma only_appends_after_collections collectionMap :
  only_appends
    (importCategories collectionMap;;
     subcollectionMap ← importSubcollections;
     importSubcategories subcollectionMap;;
     importProducts;;
     console_log LogCompleted).
Proof.
  apply only_appends_bind; [apply only_appends_importCategories|]. intros _.
  apply only_appends_bind; [apply only_appends_importSubcollections|].
  intros subcollectionMap.
  apply only_appends_bind; [apply only_appends_importSubcategories|]. intros _.
  apply only_appends_bind; [apply only_appends_importProducts|]. intros _.
  apply only_appends_console.
Qed.

(** Whatever the outcome, a run of the five imports, and a run of [main],
    leaves the environment, the files and the users alone, only adds
    console lines, and only appends rows to the five catalog tables: no
    row is deleted or changed. *)
Theorem import_only_appends (w : World) :
  world_step store_extends w (snd (import_all w))
  ∧ world_step store_extends w (snd (main w)).
Proof.
  assert (only_appends import_all) as Hall.
  { unfold import_all.
    apply only_appends_bind; [apply only_appends_importCollections|].
    apply only_appends_after_collections. }
  split; [apply Hall|].
  unfold main. destruct (negb _ || negb _); [apply world_extends_refl|].
  specialize (Hall w).
  destruct (import_all w) as [[[]|e] w']; [done|].
  by apply (world_step_add_lines_r _ [LogError e]).
Qed.

(** The run is not a transaction: when a run throws after the collection
    import has returned, whatever has failed, the collections inserted for
    the records of the collections file are still in the store. *)
Theorem failed_import_keeps_earlier_rows (w w1 w' : World)
    (collectionMap : gmap Z Z) (e : Exception) :
  importCollections w = (Returned collectionMap, w1) →
  import_all w = (Thrown e, w') →
  ∃ collectionData inserted later,
    readJSONL (fs w) collections_path = Returned collectionData
    ∧ collection_values <$> inserted
      = (λ item, Collection.new (ConvexCollection.name item)
                                (ConvexCollection.slug item)) <$> collectionData
    ∧ collections (db w') = collections (db w) ++ inserted ++ later.
Proof.
  intros Run1 Hrun.
  destruct (importCollections_returned _ _ _ Run1)
    as (collectionData & Hread & (_ & _ & _ & _ & inserted & Hdb1 & Hvalues) & _).
  unfold import_all in Hrun. erewrite bind_returned in Hrun by exact Run1.
  pose proof (only_appends_after_collections collectionMap w1) as Hstep.
  rewrite Hrun in Hstep.
  destruct Hstep as (_ & _ & _ & _ & _ & [later Hlater] & _).
  exists collectionData, inserted, later. split_and!; [done | done |].
  simpl in Hlater. rewrite Hlater, Hdb1. simpl. by rewrite app_assoc.
Qed.

End FrameClaims.

(** ** src/lib/queries.ts *)

Section SearchFacts.
Import Queries Sqlite Vocabulary.

Lemma holds_foldl_And (pattern_of : string → string) (terms : list string)
    (first : Condition) (name : string) :
  holds (foldl (λ condition term,
                  And condition (NameLikeNocase (pattern_of term)))
               first terms) name
  = holds first name && forallb (λ term, like (pattern_of term) name) terms.
Proof.
  revert first. induction terms as [|term rest IH]; intros first.
  { simpl. by rewrite andb_true_r. }
  cbn [foldl forallb]. rewrite IH. cbn [holds]. by rewrite andb_assoc.
Qed.

Lemma like_percent (name : string) : like "%" name = true.
Proof.
  induction name as [|c name IH]; [done|].
  change (like "%" (String c name)) with (false || like "%" name). by rewrite IH.
Qed.

Lemma like_prefix (term name : string) :
  no_wildcard term = true →
  like (term +:+ "%") name = starts_with_nocase term name.
Proof.
  revert name. induction term as [|p term IH]; intros name Hterm.
  { destruct name; apply like_percent. }
  unfold no_wildcard in Hterm. cbn [Js.all_chars] in Hterm.
  apply andb_prop in Hterm as [Hp Hterm].
  apply negb_true_iff, orb_false_elim in Hp as [Hpercent Hunderscore].
  rewrite append_cons. cbn [like]. rewrite Hpercent.
  destruct name as [|c name]; [done|].
  rewrite Hunderscore, IH by done. done.
Qed.

Lemma like_contains (term name : string) :
  no_wildcard term = true →
  like ("%" +:+ term +:+ "%") name = contains_nocase term name.
Proof.
  intros Hterm. induction name as [|c name IH].
  - change (like ("%" +:+ term +:+ "%") EmptyString)
      with (like (term +:+ "%") EmptyString || false).
    by rewrite like_prefix.
  - change (like ("%" +:+ term +:+ "%") (String c name))
      with (like (term +:+ "%") (String c name)
            || like ("%" +:+ term +:+ "%") name).
    by rewrite like_prefix, IH.
Qed.

Lemma trim_all_white_space (s : string) :
  Js.all_chars Js.is_white_space s = true → Js.trim s = EmptyString.
Proof. apply trim_empty_iff. Qed.

End SearchFacts.

Section QueryClaims.
Import Queries Sqlite Vocabulary Samples.

(** C2, counterexample.  (1) In the first variant the search string
    [a TAB b] is one term: the split is on the space character only.  Its
    condition is the single prefix pattern [a TAB b %], which the name [ab]
    does not satisfy, while the predicate of the specification (terms [a]
    and [b], both substring patterns) holds of [ab].  (2) In the second
    variant every term gets a substring pattern: [cab] matches [Scabbard]. *)
Lemma search_differs_from_specification :
  snd (Queries.getSearchResults empty_store ("a" +:+ tab +:+ "b"))
  = [NameLikeNocase ("a" +:+ tab +:+ "b%")]
  ∧ search_matches ("a" +:+ tab +:+ "b") "ab" = false
  ∧ spec_matches ("a" +:+ tab +:+ "b") "ab" = true
  ∧ snd (QueriesLower.getSearchResults empty_store "cab")
    = [LowerNameLike "%cab%"]
  ∧ search_matches_lower "cab" "Scabbard" = true
  ∧ spec_matches "cab" "Scabbard" = false.
Proof. repeat split; by vm_compute. Qed.

(** C2, amended.  In the first variant of [getSearchResults], for every
    search string, with the terms obtained by trimming, splitting on the
    space character, dropping the pieces that are blank and trimming each
    piece: if no term remains nothing is queried; otherwise one query is
    issued, and its condition on the product name is the conjunction over
    all terms of the case-insensitive LIKE match with the pattern [term%]
    for a term of length at least 3 and [%term%] for a shorter term.  So
    [ab] matches [Cabinet], [cab] matches [Cabinet], and [cab] does not
    match [Scabbard].  (In the second variant the term [cab] gets the
    substring pattern and matches [Scabbard].) *)
Theorem search_condition_is_conjunction (d : Store) (searchTerm : string) :
  match split_terms (Js.trim searchTerm) with
  | [] => getSearchResults d searchTerm = ([], [])
  | terms =>
      ∃ condition,
        getSearchResults d searchTerm = (select_search d condition, [condition])
        ∧ ∀ name,
            holds condition name
            = forallb (λ term,
                         like (if (3 <=? String.length term)%nat
                               then term +:+ "%" else "%" +:+ term +:+ "%")
                              name) terms
  end
  ∧ search_matches "ab" "Cabinet" = true
  ∧ search_matches "cab" "Cabinet" = true
  ∧ search_matches "cab" "Scabbard" = false
  ∧ search_matches_lower "cab" "Scabbard" = true.
Proof.
  split; [|repeat split; by vm_compute].
  unfold getSearchResults.
  destruct (split_terms (Js.trim searchTerm)) as [|firstTerm others]; [done|].
  eexists. split; [done|]. intros name.
  destruct others as [|second others].
  - cbn [forallb]. rewrite andb_true_r.
    by destruct (3 <=? String.length firstTerm)%nat.
  - rewrite holds_foldl_And. cbn [forallb holds]. unfold term_pattern.
    by destruct (3 <=? String.length firstTerm)%nat.
Qed.

(** The first variant returns the empty result, and issues no query, for
    every search string made of white space only. *)
Theorem blank_search_issues_no_query (d : Store) (searchTerm : string) :
  Js.all_chars Js.is_white_space searchTerm = true →
  Queries.getSearchResults d searchTerm = ([], []).
Proof.
  intros Hblank. unfold Queries.getSearchResults.
  by rewrite trim_all_white_space.
Qed.

Lemma blank_search_issues_no_query_witness :
  Queries.getSearchResults empty_store ("  " +:+ tab +:+ " ") = ([], []).
Proof. apply (blank_search_issues_no_query empty_store). by vm_compute. Defined.

(** C3, the failing input.  The second variant has no early return: on a
    search string of three spaces no term remains, the first term read is
    [undefined], and one query with the pattern [%undefined%] goes to the
    store. *)
Theorem blank_search_queries_undefined (d : Store) :
  QueriesLower.getSearchResults d "   "
  = (select_search d (LowerNameLike "%undefined%"),
     [LowerNameLike "%undefined%"]).
Proof. reflexivity. Qed.

(** C8.  If the payload of the verified session token has an expiry
    strictly before the current time, [getUser] returns [null]: it does
    not throw, whatever user the payload names. *)
Theorem expired_session_yields_no_user (r : Request) (token : string)
    (payload : SessionData) (expiry : Z) :
  session_cookie r = Some token →
  verifyToken r token = Returned (Some payload) →
  expires payload = Some expiry →
  expiry < now r →
  getUser r = Returned None.
Proof.
  intros Hcookie Hverify Hexpires Hpast. unfold getUser.
  rewrite Hcookie. destruct (Js.truthy token); [|done]. simpl.
  rewrite Hverify. simpl.
  destruct (user payload) as [u|]; [|done].
  destruct (id u); [|done..].
  unfold date_lt. rewrite Hexpires.
  by destruct (Z.ltb_spec expiry (now r)); [|lia].
Qed.

Lemma expired_session_yields_no_user_witness :
  getUser late_request = Returned None.
Proof.
  apply (expired_session_yields_no_user late_request "signed-token"
           session_of_user_7 1000); [done | done | done | by vm_compute].
Defined.

(** C10.  If the session token verifies, is not expired and carries a
    numeric user identifier, and no row of the user table has that
    identifier, [getUser] returns [null] and does not throw. *)
Theorem session_of_missing_user_yields_no_user (r : Request) (token : string)
    (payload : SessionData) (u : SessionUser) (userId : Z) :
  session_cookie r = Some token →
  verifyToken r token = Returned (Some payload) →
  user payload = Some u →
  id u = JsNumber userId →
  date_lt (expires payload) (now r) = false →
  Forall (λ row, User.id row ≠ userId) (users (store r)) →
  getUser r = Returned None.
Proof.
  intros Hcookie Hverify Huser Hid Hfresh Hmissing. unfold getUser.
  rewrite Hcookie. destruct (Js.truthy token); [|done]. simpl.
  rewrite Hverify. simpl. rewrite Huser, Hid, Hfresh.
  unfold select_user.
  replace (filter (λ row, User.id row = userId) (users (store r))) with
    (@nil User.row); [done|].
  symmetry. induction Hmissing as [|row rows Hrow _ IH]; [done|].
  by rewrite filter_cons, decide_False.
Qed.

Lemma session_of_missing_user_yields_no_user_witness :
  getUser request_of_deleted_user = Returned None.
Proof.
  apply (session_of_missing_user_yields_no_user request_of_deleted_user
           "signed-token" session_of_user_7
           (mkSessionUser (JsNumber 7)) 7); [done..| |].
  - by vm_compute.
  - repeat constructor. by vm_compute.
Defined.

(** What the two patterns mean for a term without wildcards: [term%]
    holds of the names that start with the term, [%term%] of the names
    that contain it, both up to ASCII case. *)
Theorem term_pattern_meaning (term name : string) :
  no_wildcard term = true →
  like (term_pattern term) name
  = if (3 <=? String.length term)%nat then starts_with_nocase term name
    else contains_nocase term name.
Proof.
  intros Hterm. unfold term_pattern.
  destruct (3 <=? String.length term)%nat;
    [by apply like_prefix | by apply like_contains].
Qed.

Lemma term_pattern_meaning_witness :
  like (term_pattern "cab") "Scabbard" = false
  ∧ like (term_pattern "ab") "Cabinet" = true.
Proof.
  split.
  - by rewrite (term_pattern_meaning "cab" "Scabbard").
  - by rewrite (term_pattern_meaning "ab" "Cabinet").
Defined.

(** A search returns at most five rows, and the product of each row
    satisfies the condition of the query. *)
Theorem search_returns_five_matching_rows (d : Store) (searchTerm : string) :
  (length (fst (getSearchResults d searchTerm)) ≤ 5)%nat
  ∧ Forall (λ row, conditions_hold (snd (getSearchResults d searchTerm))
                     (Product.name (products_row row)) = true)
           (fst (getSearchResults d searchTerm)).
Proof.
  unfold getSearchResults.
  destruct (split_terms (Js.trim searchTerm)) as [|firstTerm others].
  { split; [simpl; lia | constructor]. }
  cbn [fst snd]. split.
  - unfold select_search. rewrite length_take. lia.
  - apply Forall_forall. intros row Hrow. unfold select_search in Hrow.
    apply elem_of_take in Hrow as (i & Hrow & _).
    apply list_elem_of_lookup_2 in Hrow.
    apply list_elem_of_bind in Hrow as (p & Hrow & Hp).
    apply list_elem_of_filter in Hp as [Hp _].
    apply list_elem_of_bind in Hrow as (sc & Hrow & _).
    apply list_elem_of_bind in Hrow as (scoll & Hrow & _).
    apply list_elem_of_bind in Hrow as (cat & Hrow & _).
    apply list_elem_of_singleton in Hrow as ->.
    unfold conditions_hold. cbn [forallb products_row]. by rewrite Hp.
Qed.

End QueryClaims.

(** ** The prefetch-images route handler *)

Section PrefetchFacts.
Import PrefetchImages Vocabulary.

Lemma getHostname_development (e : Env) :
  is_development e = true → getHostname e = Some "localhost:3000".
Proof. intros Hdev. unfold getHostname. by rewrite Hdev. Qed.

(** The handler, branch by branch.  The fallback on the request's [host]
    header is never taken: it needs development mode, where a host is
    always resolved. *)
Lemma GET_cases (e : Env) (web : Web) (request : NextRequest) :
  GET e web request
  = if Js.truthy_opt (getHostname e) then
      if Js.truthy (Js.join "/" (rest request)) then
        catch_empty
          (fetch_images web
             ((if is_development e then "http" else "https")
              +:+ "://" +:+ default "" (getHostname e) +:+ "/"
              +:+ Js.join "/" (rest request)))
      else json [] 400 None
    else json [] 500 None.
Proof.
  unfold GET. destruct (Js.truthy_opt (getHostname e)) eqn:Hhost; simpl.
  - by destruct (Js.truthy (Js.join "/" (rest request))).
  - destruct (is_development e) eqn:Hdev.
    + by rewrite getHostname_development in Hhost.
    + by rewrite andb_false_r.
Qed.

Lemma fetch_images_status (web : Web) (url : string) :
  status (catch_empty (fetch_images web url)) = 200.
Proof.
  unfold fetch_images. destruct (fetch web url) as [response|]; [|done].
  simpl. destruct (ok response); [|done]. simpl.
  destruct (text response) as [body|]; [|done]. simpl.
  by destruct (main_imgs web body).
Qed.

Lemma fetch_images_fails (web : Web) (url : string) :
  fetch_or_parse_fails web url →
  catch_empty (fetch_images web url) = json [] 200 None.
Proof.
  unfold fetch_or_parse_fails, fetch_images.
  destruct (fetch web url) as [response|]; [|done]. simpl.
  destruct (ok response); [|done]. simpl.
  destruct (text response) as [body|]; [|done]. simpl.
  destruct (main_imgs web body); [|done]. by intros [|[]].
Qed.

Lemma fetch_images_have_src (web : Web) (url : string) :
  Forall has_src (images (catch_empty (fetch_images web url))).
Proof.
  unfold fetch_images. destruct (fetch web url) as [response|]; [|by constructor].
  simpl. destruct (ok response); [|by constructor]. simpl.
  destruct (text response) as [body|]; [|by constructor]. simpl.
  destruct (main_imgs web body) as [elements|]; [|by constructor]. simpl.
  apply Forall_forall. intros img [Hsrc _]%list_elem_of_filter.
  unfold has_src. destruct (src img) as [[|c s]|]; [done| |done].
  by exists (String c s).
Qed.

End PrefetchFacts.

Section PrefetchClaims.
Import PrefetchImages Vocabulary Samples.

(** C7, counterexample.  In a production deployment where no Vercel
    variable names a host, the handler answers with status 500. *)
Lemma prefetch_without_host_is_server_error :
  GET env_without_host web_up product_page = json [] 500 None.
Proof. by vm_compute. Qed.

(** C7, amended.  Whenever the handler gets as far as fetching the page,
    any failure of the fetch or of the HTML parsing yields an empty image
    list with status 200.  The handler answers 500 exactly when no host can
    be resolved from the environment, and 400 exactly when a host is
    resolved and the requested path is empty; every other answer has
    status 200. *)
Theorem prefetch_failure_is_empty_ok (e : Env) (web : Web) (request : NextRequest) :
  (∀ url, prefetch_url e request = Some url →
          fetch_or_parse_fails web url →
          GET e web request = json [] 200 None)
  ∧ (status (GET e web request) = 500 ↔ Js.truthy_opt (getHostname e) = false)
  ∧ (status (GET e web request) = 400 ↔
       Js.truthy_opt (getHostname e) = true
       ∧ Js.join "/" (rest request) = EmptyString)
  ∧ (status (GET e web request) = 200 ↔ is_Some (prefetch_url e request)).
Proof.
  rewrite GET_cases. unfold prefetch_url.
  destruct (getHostname e) as [host|] eqn:Hhost; simpl;
    [destruct (Js.truthy host) eqn:Hth; simpl|].
  - destruct (Js.join "/" (rest request)) as [|c href] eqn:Hhref; simpl.
    + split_and!; [done | done | done | ].
      split; [done | by intros []].
    + split_and!.
      * intros url [= <-]. apply fetch_images_fails.
      * by rewrite fetch_images_status.
      * rewrite fetch_images_status. by split; [|intros []].
      * by rewrite fetch_images_status.
  - split_and!; [done | done | by split; [|intros []] | ].
    split; [done | by intros []].
  - split_and!; [done | done | by split; [|intros []] | ].
    split; [done | by intros []].
Qed.

Lemma prefetch_failure_is_empty_ok_witness :
  GET env_on_vercel web_down product_page = json [] 200 None.
Proof.
  apply (proj1 (prefetch_failure_is_empty_ok env_on_vercel web_down product_page)
           "https://shop.example/products/aeron").
  - by vm_compute.
  - by vm_compute.
Defined.

(** C9.  Every image object in the body of any response of the handler
    has a non-empty [src]. *)
Theorem prefetched_images_have_src (e : Env) (web : Web) (request : NextRequest) :
  Forall has_src (images (GET e web request)).
Proof.
  rewrite GET_cases.
  destruct (Js.truthy_opt (getHostname e)); [|by constructor].
  destruct (Js.truthy (Js.join "/" (rest request))); [|by constructor].
  apply fetch_images_have_src.
Qed.

Example prefetch_of_sample_page :
  GET env_on_vercel web_up product_page
  = json [mkImage None None (Some "/a.png") (Some "A") (Some "lazy")] 200
         (Some "public, max-age=3600").
Proof. by vm_compute. Qed.

End PrefetchClaims.

Section PrefetchOutcomes.
Import PrefetchImages Vocabulary Samples.

(** The fallback on the [host] header of the request is dead code: the
    answer of the handler does not depend on the header. *)
Theorem GET_ignores_host_header (e : Env) (web : Web) (request : NextRequest)
    (hostHeader : option string) :
  GET e web (mkNextRequest hostHeader (rest request)) = GET e web request.
Proof. by rewrite !GET_cases. Qed.

(** No host is resolved exactly when the deployment is not a development
    one, [VERCEL_URL] is unset or empty, and so is the variable of the
    fallback that applies: [VERCEL_PROJECT_PRODUCTION_URL] in production,
    [VERCEL_BRANCH_URL] otherwise.  (The second operand [VERCEL_URL] of
    the two fallbacks never yields a host.) *)
Theorem getHostname_unresolved_iff (e : Env) :
  Js.truthy_opt (getHostname e) = false ↔
  is_development e = false
  ∧ Js.truthy_opt (VERCEL_URL e) = false
  ∧ Js.truthy_opt
      (if bool_decide (VERCEL_ENV e = Some "production")
       then VERCEL_PROJECT_PRODUCTION_URL e else VERCEL_BRANCH_URL e) = false.
Proof.
  unfold getHostname, Js.or_else.
  destruct (is_development e); [by split; [|intros []]|].
  destruct (Js.truthy_opt (VERCEL_URL e)) eqn:Hurl;
    [rewrite Hurl; by split; [|intros (_ & ? & _)]|].
  destruct (bool_decide (VERCEL_ENV e = Some "production")).
  - destruct (Js.truthy_opt (VERCEL_PROJECT_PRODUCTION_URL e)) eqn:Hprod;
      [rewrite Hprod; by split; [|intros (_ & _ & ?)]|].
    rewrite Hurl. by split.
  - destruct (Js.truthy_opt (VERCEL_BRANCH_URL e)) eqn:Hbranch;
      [rewrite Hbranch; by split; [|intros (_ & _ & ?)]|].
    rewrite Hurl. by split.
Qed.

Lemma fetch_images_cache_control (web : Web) (url : string) :
  (cache_control (catch_empty (fetch_images web url)) ≠ None ↔
   (fetch_or_parse_fails web url → False))
  ∧ (images (catch_empty (fetch_images web url)) ≠ [] →
     cache_control (catch_empty (fetch_images web url))
     = Some "public, max-age=3600")
  ∧ (cache_control (catch_empty (fetch_images web url)) = None
     ∨ cache_control (catch_empty (fetch_images web url))
       = Some "public, max-age=3600").
Proof.
  unfold fetch_or_parse_fails, fetch_images.
  destruct (fetch web url) as [response|]; simpl;
    [|split_and!; [split; [done | intros Hf; by destruct Hf] | done | by left]].
  destruct (ok response); simpl;
    [|split_and!; [split; [done | intros Hf; destruct Hf; by left]
                  | done | by left]].
  destruct (text response) as [body|]; simpl;
    [|split_and!; [split; [done | intros Hf; destruct Hf; by right]
                  | done | by left]].
  destruct (main_imgs web body) as [elements|]; simpl.
  - split_and!; [split; [by intros _ [|] | done] | done | by right].
  - split_and!; [split; [done | intros Hf; destruct Hf; by right]
                | done | by left].
Qed.

(** The [Cache-Control] header is set exactly on the answers built from a
    page that was fetched and parsed: its value is then
    [public, max-age=3600]; the answers with status 400 and 500 and the
    empty answers after a failure carry no such header.  In particular
    every answer that lists an image carries the header. *)
Theorem cache_header_only_on_success (e : Env) (web : Web)
    (request : NextRequest) :
  (cache_control (GET e web request) ≠ None ↔
   ∃ url, prefetch_url e request = Some url
          ∧ (fetch_or_parse_fails web url → False))
  ∧ (images (GET e web request) ≠ [] →
     cache_control (GET e web request) = Some "public, max-age=3600")
  ∧ (cache_control (GET e web request) = None
     ∨ cache_control (GET e web request) = Some "public, max-age=3600").
Proof.
  rewrite GET_cases. unfold prefetch_url.
  destruct (getHostname e) as [host|] eqn:Hhost; simpl;
    [destruct (Js.truthy host) eqn:Hth; simpl|].
  - destruct (Js.join "/" (rest request)) as [|c href] eqn:Hhref; simpl.
    + split_and!; [split; [done | by intros (url & ? & _)] | done | by left].
    + destruct (fetch_images_cache_control web
                  ((if is_development e then "http" else "https")
                   +:+ "://" +:+ host +:+ "/" +:+ String c href))
        as (Hiff & Himages & Hvalue).
      split_and!; [|done|done]. rewrite Hiff. split.
      * intros Hok. by eexists.
      * by intros (url & [= <-] & Hok).
  - split_and!; [split; [done | by intros (url & ? & _)] | done | by left].
  - split_and!; [split; [done | by intros (url & ? & _)] | done | by left].
Qed.

Example host_header_is_not_used :
  GET env_without_host web_up product_page = json [] 500 None
  ∧ getHostname
      (mkEnv (Some "preview") (Some "") (Some "preview") (Some "prod.example")
             (Some "branch.example"))
    = Some "branch.example".
Proof. split; by vm_compute. Qed.

End PrefetchOutcomes.

(** ** src/lib/queries.ts: getUser and the listing and counting queries *)

Section SessionClaims.
Import Queries Vocabulary Samples.

(** [getUser] returns a user exactly when the cookie holds a non-empty
    token, the verifier returns a payload for it that names a numeric user
    identifier and is not expired, and the user table has a row with that
    identifier; the user returned is the first such row. *)
Theorem getUser_returns_session_user (r : Request) (found : User.row) :
  getUser r = Returned (Some found) ↔
  ∃ token payload sessionUser,
    session_cookie r = Some token
    ∧ token ≠ EmptyString
    ∧ verifyToken r token = Returned (Some payload)
    ∧ user payload = Some sessionUser
    ∧ id sessionUser = JsNumber (User.id found)
    ∧ date_lt (expires payload) (now r) = false
    ∧ head (filter (λ row, User.id row = User.id found) (users (store r)))
      = Some found.
Proof.
  unfold getUser. split.
  - destruct (session_cookie r) as [token|]; [|done].
    destruct token as [|c token]; [done|]. simpl.
    destruct (verifyToken r (String c token)) as [[payload|]|] eqn:Hverify;
      try done.
    simpl. destruct (user payload) as [sessionUser|] eqn:Huser; [|done].
    destruct (id sessionUser) as [userId| |] eqn:Hid; try done.
    destruct (date_lt (expires payload) (now r)) eqn:Hfresh; [done|].
    unfold select_user.
    destruct (filter (λ u, User.id u = userId) (users (store r)))
      as [|first rest] eqn:Hrows; [done|].
    simpl. intros [= ->].
    assert (User.id found = userId) as Hfound.
    { assert (found ∈ filter (λ u, User.id u = userId) (users (store r)))
        as Hin by (rewrite Hrows; by left).
      by apply list_elem_of_filter in Hin as [? _]. }
    exists (String c token), payload, sessionUser.
    rewrite Hfound, Hrows. by split_and!.
  - intros (token & payload & sessionUser & -> & Htoken & -> & Huser & Hid
            & Hfresh & Hhead).
    destruct token as [|c token]; [done|]. simpl.
    rewrite Huser, Hid, Hfresh. unfold select_user.
    destruct (filter _ _) as [|first rest]; by simplify_eq/=.
Qed.

(** An exception of the token verifier is not caught: [getUser] throws it. *)
Theorem getUser_rethrows_verifier (r : Request) (token : string) (e : Exception) :
  session_cookie r = Some token →
  token ≠ EmptyString →
  verifyToken r token = Thrown e →
  getUser r = Thrown e.
Proof.
  intros Hcookie Htoken Hverify. unfold getUser. rewrite Hcookie.
  destruct token as [|c token]; [done|]. simpl. by rewrite Hverify.
Qed.

Lemma getUser_rethrows_verifier_witness :
  getUser forged_request = Thrown VerificationError.
Proof.
  by apply (getUser_rethrows_verifier forged_request "forged-token").
Defined.

Example getUser_of_user_7 :
  getUser request_of_user_7 = Returned (Some (User.mk 7 [("username", "ada")])).
Proof. by vm_compute. Qed.

End SessionClaims.

Section LeftJoinFacts.
Import CatalogQueries.
Context {L R : Type}.
Variable on : L → R → bool.
Variable P : L → Prop.
Context `{∀ l, Decision (P l)}.

Lemma leftJoin_cons (l : L) (left : list L) (right : list R) :
  leftJoin on (l :: left) right
  = match filter (λ r, on l r = true) right with
    | [] => [(l, None)]
    | matching => (λ r, (l, Some r)) <$> matching
    end ++ leftJoin on left right.
Proof. done. Qed.

Lemma filter_fst_row (l : L) (rows : list (option R)) :
  filter (λ row : L * option R, P (fst row)) ((λ o, (l, o)) <$> rows)
  = if decide (P l) then (λ o, (l, o)) <$> rows else [].
Proof.
  induction rows as [|o rows IH]; [by destruct (decide (P l))|].
  rewrite fmap_cons, filter_cons, IH. simpl.
  by destruct (decide (P l)).
Qed.

Lemma filter_unmatched (l : L) (right : list R) :
  (∀ r, r ∈ right → on l r = false) →
  filter (λ r, on l r = true) right = [].
Proof.
  induction right as [|r right IH]; intros Hnone; [done|].
  rewrite filter_cons, decide_False, IH; [done | |].
  - intros r' Hr'. apply Hnone. by right.
  - rewrite Hnone by (by left). done.
Qed.

(** The rows of one left row, as options. *)
Lemma leftJoin_row (l : L) (right : list R) :
  ∃ options, options ≠ []
    ∧ match filter (λ r, on l r = true) right with
      | [] => [(l, None)]
      | matching => (λ r, (l, Some r)) <$> matching
      end = (λ o, (l, o)) <$> options.
Proof.
  destruct (filter (λ r, on l r = true) right) as [|r matching].
  - by exists [None].
  - exists (Some <$> (r :: matching)). split; [done|].
    by rewrite <- list_fmap_compose.
Qed.

(** A left join never loses a left row. *)
Lemma leftJoin_filter_length (left : list L) (right : list R) :
  (length (filter P left)
   ≤ length (filter (λ row, P (fst row)) (leftJoin on left right)))%nat.
Proof.
  induction left as [|l left IH]; [done|].
  rewrite leftJoin_cons, filter_app, length_app, filter_cons.
  destruct (leftJoin_row l right) as (options & Hne & ->).
  rewrite filter_fst_row.
  destruct (decide (P l)); [|simpl; lia].
  rewrite length_fmap. destruct options; [done|]. simpl. lia.
Qed.

(** Left rows outside [P] give no row inside [P]. *)
Lemma leftJoin_filter_nil (left : list L) (right : list R) :
  filter P left = [] →
  filter (λ row, P (fst row)) (leftJoin on left right) = [].
Proof.
  induction left as [|l left IH]; [done|].
  rewrite filter_cons. destruct (decide (P l)) as [|Hl]; [done|].
  intros Hleft. rewrite leftJoin_cons, filter_app, IH by done.
  destruct (leftJoin_row l right) as (options & _ & ->).
  by rewrite filter_fst_row, decide_False.
Qed.

(** Left rows without a match come out once, paired with NULL. *)
Lemma leftJoin_filter_unmatched (left : list L) (right : list R) :
  (∀ l r, l ∈ left → P l → r ∈ right → on l r = false) →
  filter (λ row, P (fst row)) (leftJoin on left right)
  = (λ l, (l, None)) <$> filter P left.
Proof.
  induction left as [|l left IH]; intros Hnone; [done|].
  rewrite leftJoin_cons, filter_app, filter_cons.
  rewrite IH by (intros l' r Hl'; apply Hnone; by right).
  destruct (decide (P l)) as [Hl|Hl].
  - rewrite filter_unmatched by (intros r Hr; apply Hnone; [by left|done..]).
    rewrite filter_cons, filter_nil. simpl. by rewrite decide_True.
  - destruct (leftJoin_row l right) as (options & _ & ->).
    by rewrite filter_fst_row, decide_False.
Qed.

End LeftJoinFacts.

Section CatalogClaims.
Import CatalogQueries Vocabulary Samples.

Lemma slug_le_total : Total slug_le.
Proof. intros p q. unfold slug_le. apply (total String.le). Qed.

Lemma slug_le_trans : Transitive slug_le.
Proof.
  intros p q r. unfold slug_le.
  apply (transitivity (R := String.le)).
Qed.

(** The count of a subcategory is the length of its listing; the listing
    holds exactly the products of the store on that subcategory slug (each
    as often as the store holds it), in ascending order of their slugs. *)
Theorem subcategory_listing_matches_count (d : Store) (subcategorySlug : string) :
  getSubcategoryProductCount d subcategorySlug
  = [mkCountRow (length (getProductsForSubcategory d subcategorySlug))]
  ∧ getProductsForSubcategory d subcategorySlug
    ≡ₚ filter (λ p, Product.subcategory_slug p = subcategorySlug) (products d)
  ∧ (∀ p, p ∈ getProductsForSubcategory d subcategorySlug ↔
          p ∈ products d ∧ Product.subcategory_slug p = subcategorySlug)
  ∧ StronglySorted slug_le (getProductsForSubcategory d subcategorySlug).
Proof.
  unfold getSubcategoryProductCount, getProductsForSubcategory.
  split_and!.
  - by rewrite merge_sort_Permutation.
  - apply merge_sort_Permutation.
  - intros p. rewrite merge_sort_Permutation, list_elem_of_filter. tauto.
  - apply (@StronglySorted_merge_sort _ slug_le _ slug_le_trans slug_le_total).
Qed.

(** The count of a category counts the rows of three left joins, so a
    category without products still counts: the count is at least the
    number of categories with the slug, it is 0 when no category has the
    slug, and when no subcollection names the slug it is exactly the
    number of categories with the slug (1 for an existing, empty
    category). *)
Theorem category_count_counts_empty_categories (d : Store) (categorySlug : string) :
  ∃ k,
    getCategoryProductCount d categorySlug = [mkCountRow k]
    ∧ (length (filter (λ c, Category.slug c = categorySlug) (categories d))
       ≤ k)%nat
    ∧ (filter (λ c, Category.slug c = categorySlug) (categories d) = [] →
       k = 0%nat)
    ∧ (Forall (λ sc, Subcollection.category_slug sc ≠ categorySlug)
              (subcollections d) →
       k = length (filter (λ c, Category.slug c = categorySlug)
                          (categories d))).
Proof.
  unfold getCategoryProductCount. eexists. split; [done|].
  pose (P0 := λ c : Category.row, Category.slug c = categorySlug).
  pose (P1 := λ r1 : Category.row * option Subcollection.row, P0 (fst r1)).
  pose (P2 := λ r2 : Category.row * option Subcollection.row
                     * option Subcategory.row, P1 (fst r2)).
  pose (D0 := (λ c, decide (Category.slug c = categorySlug))
              : ∀ c, Decision (P0 c)).
  pose (D1 := (λ r1, D0 (fst r1)) : ∀ r1, Decision (P1 r1)).
  pose (D2 := (λ r2, D1 (fst r2)) : ∀ r2, Decision (P2 r2)).
  pose (joined1 :=
          leftJoin (λ c sc, bool_decide (Category.slug c
                                         = Subcollection.category_slug sc))
                   (categories d) (subcollections d)).
  pose (joined2 :=
          leftJoin (λ (row : Category.row * option Subcollection.row) s,
                      eq_nullable Subcollection.id
                        Subcategory.subcollection_id (snd row) s)
                   joined1 (subcategories d)).
  split_and!.
  - eapply Nat.le_trans; [|apply (@leftJoin_filter_length _ _ _ P2 D2)].
    eapply Nat.le_trans; [|apply (@leftJoin_filter_length _ _ _ P1 D1)].
    apply (@leftJoin_filter_length _ _ _ P0 D0).
  - intros Hnone. apply length_zero_iff_nil.
    apply (@leftJoin_filter_nil _ _ _ P2 D2).
    apply (@leftJoin_filter_nil _ _ _ P1 D1).
    by apply (@leftJoin_filter_nil _ _ _ P0 D0).
  - intros Hsub. rewrite Forall_forall in Hsub.
    assert (@filter _ _ _ (λ row, P0 (fst row)) (λ row, D0 (fst row)) joined1
            = (λ c, (c, None)) <$> @filter _ _ _ P0 D0 (categories d)) as H1.
    { apply (@leftJoin_filter_unmatched _ _ _ P0 D0).
      intros c sc _ Hc Hsc. apply bool_decide_eq_false. rewrite Hc.
      intros Heq. by apply (Hsub sc). }
    assert (@filter _ _ _ (λ row, P1 (fst row)) (λ row, D1 (fst row)) joined2
            = (λ r1, (r1, None)) <$> @filter _ _ _ P1 D1 joined1) as H2.
    { apply (@leftJoin_filter_unmatched _ _ _ P1 D1).
      intros r1 s Hr1 Hslug _.
      assert (r1 ∈ @filter _ _ _ (λ row, P0 (fst row))
                     (λ row, D0 (fst row)) joined1) as Hin
        by (by apply list_elem_of_filter).
      rewrite H1 in Hin. by apply list_elem_of_fmap in Hin as (c & -> & _). }
    trans (length ((λ r2, (r2, None (A := Product.row)))
                     <$> @filter _ _ _ P2 D2 joined2)).
    + f_equal. apply (@leftJoin_filter_unmatched _ _ _ P2 D2).
      intros r2 p Hr2 Hslug _.
      assert (r2 ∈ @filter _ _ _ (λ row, P1 (fst row))
                     (λ row, D1 (fst row)) joined2) as Hin
        by (by apply list_elem_of_filter).
      rewrite H2 in Hin. by apply list_elem_of_fmap in Hin as (r1 & -> & _).
    + rewrite length_fmap.
      change (length (@filter _ _ _ (λ row, P1 (fst row))
                        (λ row, D1 (fst row)) joined2)
              = length (@filter _ _ _ P0 D0 (categories d))).
      rewrite H2, length_fmap.
      change (length (@filter _ _ _ (λ row, P0 (fst row))
                        (λ row, D0 (fst row)) joined1)
              = length (@filter _ _ _ P0 D0 (categories d))).
      by rewrite H1, length_fmap.
Qed.

Example category_counts_of_small_catalog :
  getCategoryProductCount small_catalog "chairs" = [mkCountRow 2]
  ∧ getCategoryProductCount small_catalog "lamps" = [mkCountRow 1]
  ∧ getCategoryProductCount small_catalog "rugs" = [mkCountRow 0].
Proof. by vm_compute. Qed.

Example listing_of_desk_chairs :
  Product.slug <$> getProductsForSubcategory small_catalog "desk-chairs"
  = ["aeron"; "zeta"].
Proof. by vm_compute. Qed.

End CatalogClaims.

(** ** Import, then query *)

Section ImportThenQuery.
Import ImportConvexData Vocabulary CatalogQueries.
Context `{JSONParse ConvexCollection.t} `{JSONParse ConvexCategory.t}
        `{JSONParse ConvexSubcollection.t} `{JSONParse ConvexSubcategory.t}
        `{JSONParse ConvexProduct.t}.




End ImportThenQuery.

Section OutcomeWitnesses.
Import ImportConvexData Vocabulary CatalogQueries Samples.

Lemma failed_import_keeps_earlier_rows_witness :
  ∃ collectionData inserted later,
    @readJSONL _ decode_collection (fs referential_world) collections_path
    = Returned collectionData
    ∧ collection_values <$> inserted
      = (λ item, Collection.new (ConvexCollection.name item)
                                (ConvexCollection.slug item)) <$> collectionData
    ∧ collections (db (snd (@import_all decode_collection decode_category
                              decode_subcollection decode_subcategory
                              decode_product referential_world)))
      = collections (db referential_world) ++ inserted ++ later.
Proof.
  apply (@failed_import_keeps_earlier_rows decode_collection decode_category
           decode_subcollection decode_subcategory decode_product
           referential_world
           (snd (@importCollections decode_collection referential_world))
           (snd (@import_all decode_collection decode_category
                   decode_subcollection decode_subcategory decode_product
                   referential_world))
           {[101 := 1]} DatabaseError); by vm_compute.
Defined.


Example failed_import_of_sample :
  @main decode_collection decode_category decode_subcollection
    decode_subcategory decode_product referential_world
  = (Exit1,
     mkWorld (env export_world) (fs export_world) enforces_subcategory_slugs
       (mkStore [] [Collection.mk 1 "Furniture" "furniture"]
          [Category.mk "chairs" "Chairs" 1 None]
          [Subcollection.mk 1 "Office chairs" "chairs"]
          [Subcategory.mk "desk-chairs" "Desk chairs" 1 None] [])
       (console (snd (@main decode_collection decode_category
                        decode_subcollection decode_subcategory
                        decode_product referential_world)))).
Proof. by vm_compute. Qed.

End OutcomeWitnesses.
